(** * PayD backend observability pipeline: tracing, metrics, alerting, export

    A shallow embedding of the TypeScript services under
    [backend/src/services] (the tracing service, the metrics collector, the
    alerting service and the Elasticsearch transport) and of the monitoring
    route that reads a trace back, followed by the properties the design
    document states about them.

    Conventions of the embedding:
    - a JavaScript array is a [list]; a [Map] whose iteration order is
      observable is an association list in insertion order, a [Map] that is
      only looked up is a [gmap];
    - millisecond clock readings ([Date.now()], [Date.getTime()]) and
      integral durations are [Z]; the sampling rate and the percentile rank
      are rationals [Q];
    - every source of nondeterminism ([crypto.randomBytes], [Math.random],
      the clock, the outcome of a [fetch]) is an explicit argument of the
      operation that consults it;
    - span objects live in a store indexed by object identity, because the
      tracing service moves one and the same object from its active map to
      its completed array and mutates it in place. *)

From Stdlib Require Import ZArith QArith Qround Floats Ascii String.
From stdpp Require Import gmap strings list sorting pretty.

Local Open Scope Z_scope.

(** ** JavaScript runtime helpers *)

Module JS.

(** [Array.prototype.slice]: a negative index counts from the end, every
    index is clamped to the bounds, an absent [end] means the length. *)
Definition rel_index (len : nat) (i : Z) : nat :=
  if i <? 0 then Z.to_nat (Z.max (Z.of_nat len + i) 0)
  else Z.to_nat (Z.min i (Z.of_nat len)).

Definition slice {A} (l : list A) (start : Z) (end_ : option Z) : list A :=
  let len := length l in
  let k := rel_index len start in
  let final := match end_ with
               | None => len
               | Some e => rel_index len e
               end in
  take (final - k) (drop k l).

(** [Array.prototype.sort] with a comparator: the sort is stable, an element
    moves behind another one only when the comparator is positive. *)
Fixpoint sort_insert {A} (cmp : A → A → Z) (x : A) (l : list A) : list A :=
  match l with
  | [] => [x]
  | y :: l' => if 0 <? cmp x y then y :: sort_insert cmp x l' else x :: y :: l'
  end.

Definition sort {A} (cmp : A → A → Z) (l : list A) : list A :=
  foldr (sort_insert cmp) [] l.

(** [String.prototype.split] on a one-character separator; the result is
    never empty (the empty string splits into one empty field). *)
Fixpoint split (sep : ascii) (s : string) : list string :=
  match s with
  | EmptyString => [EmptyString]
  | String c s' =>
      if Ascii.eqb c sep then EmptyString :: split sep s'
      else match split sep s' with
           | [] => [String c EmptyString]
           | f :: fs => String c f :: fs
           end
  end.

(** Truthiness of a number-or-undefined ([undefined] and [0] are falsy). *)
Definition truthy_num (o : option Z) : bool :=
  match o with
  | Some n => negb (n =? 0)
  | None => false
  end.

(** The value of [a || b] for an optional number [a]. *)
Definition or_num (o : option Z) (d : Z) : Z :=
  if truthy_num o then default d o else d.

(** A computation either returns or throws. *)
Inductive outcome (A : Type) : Type :=
  | Returns (a : A)
  | Throws (e : string).
Global Arguments Returns {A} a.
Global Arguments Throws {A} e.

Global Instance outcome_ret : MRet outcome := λ A a, Returns a.
Global Instance outcome_bind : MBind outcome := λ A B k m,
  match m with
  | Returns a => k a
  | Throws e => Throws e
  end.

(** [try { body } catch (e) { handler(e) }] *)
Definition try_catch {A} (body : outcome A) (handler : string → outcome A)
  : outcome A :=
  match body with
  | Returns a => Returns a
  | Throws e => handler e
  end.

End JS.

(** ** Metrics collector *)

Module Metrics.

Record RequestMetric := mkRequestMetric {
  method : string;
  path : string;
  statusCode : Z;
  durationMs : Z;
  timestamp : Z;
}.

Record ErrorEntry := mkErrorEntry {
  err_message : string;
  err_path : string;
  err_timestamp : Z;
}.

Record DbMetrics := mkDbMetrics {
  count : Z;
  totalDurationMs : Z;
  slowCount : Z;
}.

Record MetricsCollector := mkMetricsCollector {
  requestMetrics : list RequestMetric;
  errorLog : list ErrorEntry;
  dbMetrics : DbMetrics;
}.

Definition maxMetricsRetained : Z := 10000.
Definition errorWindowMs : Z := 60000.
Definition slowQueryThresholdMs : Z := 1000.

Definition init : MetricsCollector :=
  mkMetricsCollector [] [] (mkDbMetrics 0 0 0).

(** [recordRequest]: push, then keep the newest half once the cap is
    exceeded. The warning logged for a 5xx status leaves the state alone. *)
Definition recordRequest (metric : RequestMetric) (s : MetricsCollector)
  : MetricsCollector :=
  let pushed := requestMetrics s ++ [metric] in
  let kept :=
    if maxMetricsRetained <? Z.of_nat (length pushed)
    then JS.slice pushed (- maxMetricsRetained / 2) None
    else pushed in
  mkMetricsCollector kept (errorLog s) (dbMetrics s).

(** [recordError]: push, then drop what is older than five minutes.
    [stamp] is the time of [new Date()], [now] the [Date.now()] that
    follows. *)
Definition recordError (stamp now : Z) (message path : string)
    (s : MetricsCollector) : MetricsCollector :=
  let pushed := errorLog s ++ [mkErrorEntry message path stamp] in
  let cutoff := now - 5 * 60000 in
  mkMetricsCollector (requestMetrics s)
    (List.filter (λ e, cutoff <? err_timestamp e) pushed)
    (dbMetrics s).

Definition recordDatabaseQuery (duration : Z) (s : MetricsCollector)
  : MetricsCollector :=
  let d := dbMetrics s in
  mkMetricsCollector (requestMetrics s) (errorLog s)
    (mkDbMetrics (count d + 1) (totalDurationMs d + duration)
       (if slowQueryThresholdMs <? duration then slowCount d + 1
        else slowCount d)).

(** [percentile(sorted, p)]: [None] stands for [undefined], the value of an
    array read past the end. The rank [p] is a rational and the product is
    computed exactly; [float_rank] below is the same product in binary64,
    as the JavaScript engine evaluates it. *)
Definition percentile (sorted : list Z) (p : Q) : option Z :=
  if (length sorted =? 0)%nat then Some 0
  else
    let idx :=
      Qceiling (p / 100 * inject_Z (Z.of_nat (length sorted))) - 1 in
    sorted !! Z.to_nat (Z.max 0 idx).

Definition getErrorRate (now : Z) (s : MetricsCollector) : Z :=
  let windowStart := now - errorWindowMs in
  Z.of_nat (length (List.filter (λ e, windowStart <? err_timestamp e)
                      (errorLog s))).

(** The part of [getSummary] that feeds [percentile]. *)
Definition durations (s : MetricsCollector) : list Z :=
  JS.sort (λ a b, a - b) (map durationMs (requestMetrics s)).

Definition p95DurationMs (s : MetricsCollector) : option Z :=
  percentile (durations s) 95.

Definition p99DurationMs (s : MetricsCollector) : option Z :=
  percentile (durations s) 99.

Definition reset (s : MetricsCollector) : MetricsCollector := init.

(** [Math.ceil] of a binary64 number, as an integer (0 for NaN and the
    infinities, which the ranks used here never produce). *)
Definition float_ceil (f : float) : Z :=
  match Prim2SF f with
  | S754_finite sign m e =>
      if sign then
        - (if 0 <=? e then Z.pos m * 2 ^ e else Z.pos m / 2 ^ (- e))
      else
        if 0 <=? e then Z.pos m * 2 ^ e else - ((- Z.pos m) / 2 ^ (- e))
  | _ => 0
  end.

Definition float_of_Z (z : Z) : float := PrimFloat.of_uint63 (Uint63.of_Z z).

(** [Math.ceil((p / 100) * n)] in binary64, for small naturals [p], [n]. *)
Definition float_rank (p n : Z) : Z :=
  float_ceil (PrimFloat.mul (PrimFloat.div (float_of_Z p) (float_of_Z 100))
                (float_of_Z n)).

Definition exact_rank (p n : Z) : Z :=
  Qceiling (inject_Z p / 100 * inject_Z n).

End Metrics.

(** ** Elasticsearch transport *)

Module Transport.

(** How a [fetch] settles: a response (with its [ok] flag, 2xx or not), or
    a rejection (connection refused, DNS failure, timeout, ...). *)
Inductive FetchResult :=
  | Responded (ok : bool) (status : Z) (statusText : string)
  | Rejected (message : string).

Record Response := mkResponse {
  resp_ok : bool;
  resp_status : Z;
  resp_statusText : string;
}.

(** [await fetch(...)]: a rejection surfaces as an exception. *)
Definition fetch (r : FetchResult) : JS.outcome Response :=
  match r with
  | Responded o st txt => JS.Returns (mkResponse o st txt)
  | Rejected msg => JS.Throws msg
  end.

(** A buffered log document: its [index] field and what [JSON.stringify]
    makes of it (which may throw, e.g. on a circular structure). *)
Record Doc := mkDoc {
  doc_index : option string;
  doc_json : JS.outcome string;
}.

Record ElasticsearchTransport := mkTransport {
  buffer : list Doc;
  indexPrefix : string;
  console_error : list string;   (* diagnostics written by console.error *)
}.

Definition bufferLimit : Z := 100.

Definition set_buffer (b : list Doc) (t : ElasticsearchTransport) :=
  mkTransport b (indexPrefix t) (console_error t).

Definition log_error (msg : string) (t : ElasticsearchTransport) :=
  mkTransport (buffer t) (indexPrefix t) (console_error t ++ [msg]).

Definition newline : string := String (ascii_of_nat 10) EmptyString.
Definition dquote : string := String (ascii_of_nat 34) EmptyString.

(** One action line and one source line per document. *)
Definition bulk_line (prefix : string) (d : Doc) : JS.outcome string :=
  let index := match doc_index d with
               | Some i => if String.eqb i EmptyString then prefix +:+ "-logs"
                           else i
               | None => prefix +:+ "-logs"
               end in
  let action := "{" +:+ dquote +:+ "index" +:+ dquote +:+ ":{" +:+ dquote
                +:+ "_index" +:+ dquote +:+ ":" +:+ dquote +:+ index
                +:+ dquote +:+ "}}" in
  source ← doc_json d;
  mret (action +:+ newline +:+ source).

Fixpoint bulk_lines (prefix : string) (docs : list Doc)
  : JS.outcome (list string) :=
  match docs with
  | [] => mret []
  | d :: ds =>
      l ← bulk_line prefix d;
      ls ← bulk_lines prefix ds;
      mret (l :: ls)
  end.

Fixpoint join (sep : string) (l : list string) : string :=
  match l with
  | [] => EmptyString
  | [x] => x
  | x :: xs => x +:+ sep +:+ join sep xs
  end.

(** The synchronous prefix of [flush]: snapshot the buffer and clear it. *)
Definition flush_take (t : ElasticsearchTransport)
  : list Doc * ElasticsearchTransport :=
  (buffer t, set_buffer [] t).

(** The [try] block and its [catch], run on the snapshot [docs] in whatever
    state the transport is by then: the body is serialized, POSTed once, and
    the only trace a failure leaves is a [console.error] line. *)
Definition flush_send (r : FetchResult) (docs : list Doc)
    (t : ElasticsearchTransport) : JS.outcome ElasticsearchTransport :=
  JS.try_catch
    (ls ← bulk_lines (indexPrefix t) docs;
     let body := join newline ls +:+ newline in
     response ← fetch r;
     if negb (resp_ok response)
     then mret (log_error ("Elasticsearch bulk insert failed: "
                           +:+ pretty (resp_status response) +:+ " "
                           +:+ resp_statusText response) t)
     else mret t)
    (λ e, mret (log_error ("Failed to ship logs to Elasticsearch: " +:+ e) t)).

(** [flush()], run to completion. *)
Definition flush (r : FetchResult) (t : ElasticsearchTransport)
  : JS.outcome ElasticsearchTransport :=
  if (length (buffer t) =? 0)%nat then mret t
  else
    let '(docs, t1) := flush_take t in
    flush_send r docs t1.

(** [log(info, callback)]: [doc] is the document built from [info]; [r] is
    how the bulk request settles should this call trigger a flush. *)
Definition log (r : FetchResult) (doc : Doc) (t : ElasticsearchTransport)
  : JS.outcome ElasticsearchTransport :=
  let t1 := set_buffer (buffer t ++ [doc]) t in
  if bufferLimit <=? Z.of_nat (length (buffer t1)) then flush r t1
  else mret t1.

Definition close (r : FetchResult) (t : ElasticsearchTransport)
  : JS.outcome ElasticsearchTransport :=
  flush r t.

End Transport.

(** ** Tracing service *)

Module Tracing.

Inductive SpanStatus := ok | error | in_progress.

Inductive TagValue :=
  | TagStr (s : string)
  | TagNum (n : Z)
  | TagBool (b : bool).

Record LogEntry := mkLogEntry {
  log_timestamp : Z;
  log_message : string;
  log_data : option (gmap string TagValue);
}.

Record Span := mkSpan {
  spanId : string;
  traceId : string;
  parentSpanId : option string;
  operationName : string;
  serviceName : string;
  startTime : Z;
  endTime : option Z;
  duration : option Z;
  status : SpanStatus;
  tags : gmap string TagValue;
  logs : list LogEntry;
}.

Record TraceContext := mkTraceContext {
  ctx_traceId : string;
  ctx_spanId : string;
  ctx_parentSpanId : option string;
}.

(** The fields of [monitoringConfig] the service reads. *)
Record MonitoringConfig := mkMonitoringConfig {
  TRACING_ENABLED : bool;
  TRACING_SAMPLE_RATE : Q;
  SERVICE_NAME : string;
  ELASTICSEARCH_ENABLED : bool;
}.

(** The constructor copies these two into readonly fields. *)
Definition enabled (cfg : MonitoringConfig) : bool := TRACING_ENABLED cfg.
Definition sampleRate (cfg : MonitoringConfig) : Q := TRACING_SAMPLE_RATE cfg.

(** A span object is identified by its position in [objects]; the active
    map and the completed array hold such identities. [objects] only grows,
    and an object that nothing refers to any more is garbage. *)
Record TracingService := mkTracingService {
  objects : list Span;
  activeSpans : list (string * nat);   (* Map<string, Span>, insertion order *)
  completedSpans : list nat;           (* Span[] *)
}.

Definition maxCompletedSpans : Z := 5000.

Definition init : TracingService := mkTracingService [] [] [].

(** [Map.prototype.get / set / delete] on an insertion-ordered map. *)
Fixpoint Map_get {V} (k : string) (m : list (string * V)) : option V :=
  match m with
  | [] => None
  | (k', v) :: m' => if String.eqb k' k then Some v else Map_get k m'
  end.

Fixpoint Map_set {V} (k : string) (v : V) (m : list (string * V))
  : list (string * V) :=
  match m with
  | [] => [(k, v)]
  | (k', v') :: m' =>
      if String.eqb k' k then (k', v) :: m' else (k', v') :: Map_set k v m'
  end.

Fixpoint Map_delete {V} (k : string) (m : list (string * V))
  : list (string * V) :=
  match m with
  | [] => []
  | (k', v') :: m' =>
      if String.eqb k' k then m' else (k', v') :: Map_delete k m'
  end.

(** Reading an object through its identity. A dangling identity has no
    counterpart in JavaScript; it is reported as a thrown error so that
    its absence is something to prove. *)
Definition read (s : TracingService) (r : nat) : JS.outcome Span :=
  match objects s !! r with
  | Some sp => JS.Returns sp
  | None => JS.Throws "dangling span object"
  end.

Fixpoint read_all (s : TracingService) (rs : list nat)
  : JS.outcome (list Span) :=
  match rs with
  | [] => mret []
  | r :: rs' =>
      sp ← read s r;
      sps ← read_all s rs';
      mret (sp :: sps)
  end.

(** [shouldSample()]: [draw] is the value [Math.random()] would return. *)
Definition shouldSample (cfg : MonitoringConfig) (draw : Q) : bool :=
  if negb (enabled cfg) then false
  else if Qle_bool 1 (sampleRate cfg) then true
  else negb (Qle_bool (sampleRate cfg) draw).

Definition new_span (cfg : MonitoringConfig) (sid tid : string)
    (parent : option string) (name : string) (now : Z)
    (tgs : option (gmap string TagValue)) : Span :=
  mkSpan sid tid parent name (SERVICE_NAME cfg) now None None in_progress
    (default ∅ tgs) [].

(** [activeSpans.set(spanId, span)] for a newly created span object. *)
Definition register (sp : Span) (s : TracingService) : TracingService :=
  mkTracingService (objects s ++ [sp])
    (Map_set (spanId sp) (length (objects s)) (activeSpans s))
    (completedSpans s).

(** [startTrace]: [tid] and [sid] are the generated trace and span ids. *)
Definition startTrace (cfg : MonitoringConfig) (tid sid : string) (draw : Q)
    (now : Z) (name : string) (tgs : option (gmap string TagValue))
    (s : TracingService) : TraceContext * TracingService :=
  let s' := if shouldSample cfg draw
            then register (new_span cfg sid tid None name now tgs) s
            else s in
  (mkTraceContext tid sid None, s').

(** [startSpan]: [sid] is the generated span id. *)
Definition startSpan (cfg : MonitoringConfig) (sid : string) (now : Z)
    (tid parent name : string) (tgs : option (gmap string TagValue))
    (s : TracingService) : TraceContext * TracingService :=
  let s' := if enabled cfg
            then register (new_span cfg sid tid (Some parent) name now tgs) s
            else s in
  (mkTraceContext tid sid (Some parent), s').

(** [new Date(ms).toISOString()] throws a RangeError outside the range of
    valid dates; the string itself is not modelled. *)
Definition toISOString (ms : Z) : JS.outcome unit :=
  if Z.abs ms <=? 8640000000000000 then mret tt
  else JS.Throws "RangeError: Invalid time value".

(** [shipSpan]: an async function whose whole body sits in a [try] with an
    empty [catch]. The outcome is how its promise settles. *)
Definition shipSpan (cfg : MonitoringConfig) (r : Transport.FetchResult)
    (sp : Span) : JS.outcome unit :=
  JS.try_catch
    (_ ← toISOString (startTime sp);
     _ ← Transport.fetch r;
     mret tt)
    (λ _, mret tt).

Definition close_span (now : Z) (st : SpanStatus)
    (tgs : option (gmap string TagValue)) (sp : Span) : Span :=
  mkSpan (spanId sp) (traceId sp) (parentSpanId sp) (operationName sp)
    (serviceName sp) (startTime sp) (Some now) (Some (now - startTime sp)) st
    (match tgs with
     | Some t => t ∪ tags sp       (* Object.assign(span.tags, tags) *)
     | None => tags sp
     end)
    (logs sp).

(** [endSpan]: [ship] is how the export request settles. The promise of
    [shipSpan] is not awaited, so nothing of it reaches the caller. *)
Definition endSpan (cfg : MonitoringConfig) (now : Z)
    (ship : Transport.FetchResult) (sid : string) (st : SpanStatus)
    (tgs : option (gmap string TagValue)) (s : TracingService)
  : JS.outcome TracingService :=
  match Map_get sid (activeSpans s) with
  | None => mret s
  | Some r =>
      sp ← read s r;
      let sp' := close_span now st tgs sp in
      let pushed := completedSpans s ++ [r] in
      let kept :=
        if maxCompletedSpans <? Z.of_nat (length pushed)
        then JS.slice pushed (- maxCompletedSpans / 2) None
        else pushed in
      let _promise :=
        if ELASTICSEARCH_ENABLED cfg then shipSpan cfg ship sp' else mret tt in
      mret (mkTracingService (<[r := sp']> (objects s))
              (Map_delete sid (activeSpans s)) kept)
  end.

Definition add_log (e : LogEntry) (sp : Span) : Span :=
  mkSpan (spanId sp) (traceId sp) (parentSpanId sp) (operationName sp)
    (serviceName sp) (startTime sp) (endTime sp) (duration sp) (status sp)
    (tags sp) (logs sp ++ [e]).

Definition add_tags (t : gmap string TagValue) (sp : Span) : Span :=
  mkSpan (spanId sp) (traceId sp) (parentSpanId sp) (operationName sp)
    (serviceName sp) (startTime sp) (endTime sp) (duration sp) (status sp)
    (t ∪ tags sp) (logs sp).

Definition addSpanLog (now : Z) (sid message : string)
    (data : option (gmap string TagValue)) (s : TracingService)
  : JS.outcome TracingService :=
  match Map_get sid (activeSpans s) with
  | None => mret s
  | Some r =>
      sp ← read s r;
      mret (mkTracingService
              (<[r := add_log (mkLogEntry now message data) sp]> (objects s))
              (activeSpans s) (completedSpans s))
  end.

Definition addSpanTags (sid : string) (tgs : gmap string TagValue)
    (s : TracingService) : JS.outcome TracingService :=
  match Map_get sid (activeSpans s) with
  | None => mret s
  | Some r =>
      sp ← read s r;
      mret (mkTracingService (<[r := add_tags tgs sp]> (objects s))
              (activeSpans s) (completedSpans s))
  end.

Definition of_trace (tid : string) (sp : Span) : bool :=
  String.eqb (traceId sp) tid.

(** [getTrace]: active spans in map order, then completed ones, sorted by
    start time. *)
Definition getTrace (tid : string) (s : TracingService)
  : JS.outcome (list Span) :=
  act ← read_all s (map snd (activeSpans s));
  closed ← read_all s (completedSpans s);
  let spans := List.filter (of_trace tid) act
               ++ List.filter (of_trace tid) closed in
  mret (JS.sort (λ a b, startTime a - startTime b) spans).

Definition getRecentSpans (limit : Z) (s : TracingService)
  : JS.outcome (list Span) :=
  read_all s (reverse (JS.slice (completedSpans s) (- limit) None)).

Definition getActiveSpanCount (s : TracingService) : Z :=
  Z.of_nat (length (activeSpans s)).

(** [parseTraceparent]: [sid] is the freshly generated span id. The header
    is a byte string, as Node hands header values over. *)
Definition parseTraceparent (sid : string) (header : string)
  : option TraceContext :=
  let parts := JS.split "-" header in
  if negb (length parts =? 4)%nat then None
  else
    match parts with
    | _ :: tid :: parent :: _ =>
        if String.eqb tid EmptyString || negb (String.length tid =? 32)%nat
        then None
        else if String.eqb parent EmptyString
                || negb (String.length parent =? 16)%nat
        then None
        else Some (mkTraceContext tid sid (Some parent))
    | _ => None
    end.

Definition toTraceparent (ctx : TraceContext) : string :=
  "00-" +:+ ctx_traceId ctx +:+ "-" +:+ ctx_spanId ctx +:+ "-01".

(** *** The service as a transition system

    One constructor per state-changing method; each carries the method's
    arguments and the values the environment supplies during the call. *)
Inductive call :=
  | StartTrace (tid sid : string) (draw : Q) (now : Z) (name : string)
               (tgs : option (gmap string TagValue))
  | StartSpan (sid : string) (now : Z) (tid parent name : string)
              (tgs : option (gmap string TagValue))
  | EndSpan (now : Z) (ship : Transport.FetchResult) (sid : string)
            (st : SpanStatus) (tgs : option (gmap string TagValue))
  | AddSpanLog (now : Z) (sid message : string)
               (data : option (gmap string TagValue))
  | AddSpanTags (sid : string) (tgs : gmap string TagValue).

Definition run (cfg : MonitoringConfig) (c : call) (s : TracingService)
  : JS.outcome TracingService :=
  match c with
  | StartTrace tid sid draw now name tgs =>
      mret (startTrace cfg tid sid draw now name tgs s).2
  | StartSpan sid now tid parent name tgs =>
      mret (startSpan cfg sid now tid parent name tgs s).2
  | EndSpan now ship sid st tgs => endSpan cfg now ship sid st tgs s
  | AddSpanLog now sid message data => addSpanLog now sid message data s
  | AddSpanTags sid tgs => addSpanTags sid tgs s
  end.

(** The span ids held by the active map and by the completed store. *)
Definition active_ids (s : TracingService) : list string :=
  map fst (activeSpans s).

Definition completed_ids (s : TracingService) : list string :=
  omap (λ r, spanId <$> objects s !! r) (completedSpans s).

(** [generateSpanId] draws 64 random bits. The generated id is taken to be
    new with respect to the spans still held in the completed store. *)
Definition generated_id_is_new (c : call) (s : TracingService) : Prop :=
  match c with
  | StartTrace _ sid _ _ _ _ | StartSpan sid _ _ _ _ _ =>
      sid ∉ completed_ids s
  | _ => True
  end.

Inductive reachable (cfg : MonitoringConfig) : TracingService → Prop :=
  | reachable_init : reachable cfg init
  | reachable_step s c s' :
      reachable cfg s →
      generated_id_is_new c s →
      run cfg c s = JS.Returns s' →
      reachable cfg s'.

(** Every id generated along a sequence of calls is new when generated. *)
Fixpoint ids_new (cfg : MonitoringConfig) (cs : list call)
    (s : TracingService) : Prop :=
  match cs with
  | [] => True
  | c :: cs' =>
      generated_id_is_new c s ∧
      match run cfg c s with
      | JS.Returns s1 => ids_new cfg cs' s1
      | JS.Throws _ => True
      end
  end.

(** A sequence of calls, oldest first. *)
Definition run_all (cfg : MonitoringConfig) (cs : list call)
    (s : TracingService) : JS.outcome TracingService :=
  foldl (λ acc c, acc ≫= run cfg c) (mret s) cs.

End Tracing.

(** ** Alerting service *)

Module Alerting.

Inductive AlertType := error_rate | response_time | service_down | custom.
Inductive Severity := info | warning | critical.

Global Instance AlertType_eq_dec : EqDecision AlertType.
Proof. solve_decision. Defined.
Global Instance Severity_eq_dec : EqDecision Severity.
Proof. solve_decision. Defined.

Definition type_name (t : AlertType) : string :=
  match t with
  | error_rate => "error_rate"
  | response_time => "response_time"
  | service_down => "service_down"
  | custom => "custom"
  end.

Definition severity_name (v : Severity) : string :=
  match v with
  | info => "info"
  | warning => "warning"
  | critical => "critical"
  end.

Record Alert := mkAlert {
  id : string;
  type : AlertType;
  severity : Severity;
  title : string;
  message : string;
  timestamp : Z;                       (* Date, as its getTime() *)
  metadata : list (string * string);
  acknowledged : bool;
}.

(** The argument object of [createAlert]. *)
Record AlertParams := mkAlertParams {
  p_type : AlertType;
  p_severity : Severity;
  p_title : string;
  p_message : string;
  p_metadata : option (list (string * string));
}.

(** The argument object of [getAlerts]; every field is optional. *)
Record AlertFilter := mkAlertFilter {
  f_severity : option Severity;
  f_type : option AlertType;
  f_acknowledged : option bool;
  f_limit : option Z;
}.

Record MonitoringConfig := mkMonitoringConfig {
  ALERT_COOLDOWN_MS : Z;
  ALERT_EMAIL_ENABLED : bool;
}.

Record AlertingService := mkAlertingService {
  alerts : list Alert;
  lastAlertTime : gmap string Z;
}.

Definition maxAlerts : Z := 1000.

Definition init : AlertingService := mkAlertingService [] ∅.

Definition alertKey (params : AlertParams) : string :=
  type_name (p_type params) +:+ ":" +:+ severity_name (p_severity params).

(** [createAlert]: [now] is [Date.now()], [stamp] the time of the
    [new Date()] that follows, [rnd] the six base-36 digits drawn for the
    id. The log line and the fire-and-forget e-mail leave the state alone. *)
Definition createAlert (cfg : MonitoringConfig) (now stamp : Z) (rnd : string)
    (params : AlertParams) (s : AlertingService)
  : option Alert * AlertingService :=
  let key := alertKey params in
  let lastTime := lastAlertTime s !! key in
  if JS.truthy_num lastTime
     && (now - default 0 lastTime <? ALERT_COOLDOWN_MS cfg)
  then (None, s)
  else
    let alert :=
      mkAlert ("alert-" +:+ pretty now +:+ "-" +:+ rnd)
        (p_type params) (p_severity params) (p_title params)
        (p_message params) stamp (default [] (p_metadata params)) false in
    let pushed := alerts s ++ [alert] in
    let kept :=
      if maxAlerts <? Z.of_nat (length pushed)
      then JS.slice pushed (- maxAlerts / 2) None
      else pushed in
    (Some alert, mkAlertingService kept (<[key := now]> (lastAlertTime s))).

(** The three optional filters of [getAlerts], applied in turn. *)
Definition matching (filter : option AlertFilter) (l : list Alert)
  : list Alert :=
  let l1 := match filter ≫= f_severity with
            | Some v => List.filter (λ a, bool_decide (severity a = v)) l
            | None => l
            end in
  let l2 := match filter ≫= f_type with
            | Some t => List.filter (λ a, bool_decide (type a = t)) l1
            | None => l1
            end in
  match filter ≫= f_acknowledged with
  | Some b => List.filter (λ a, bool_decide (acknowledged a = b)) l2
  | None => l2
  end.

Definition getAlerts (filter : option AlertFilter) (s : AlertingService)
  : list Alert :=
  let result := matching filter (alerts s) in
  let sorted := JS.sort (λ a b, timestamp b - timestamp a) result in
  JS.slice sorted 0 (Some (JS.or_num (filter ≫= f_limit) 50)).

Definition acknowledge (a : Alert) : Alert :=
  mkAlert (id a) (type a) (severity a) (title a) (message a) (timestamp a)
    (metadata a) true.

Fixpoint acknowledge_first (alertId : string) (l : list Alert)
  : option (list Alert) :=
  match l with
  | [] => None
  | a :: l' =>
      if String.eqb (id a) alertId then Some (acknowledge a :: l')
      else cons a <$> acknowledge_first alertId l'
  end.

Definition acknowledgeAlert (alertId : string) (s : AlertingService)
  : bool * AlertingService :=
  match acknowledge_first alertId (alerts s) with
  | Some l => (true, mkAlertingService l (lastAlertTime s))
  | None => (false, s)
  end.

(** A [createAlert] call together with what the environment supplies. *)
Record Call := mkCall {
  c_now : Z;
  c_stamp : Z;
  c_rnd : string;
  c_params : AlertParams;
}.

Definition call (cfg : MonitoringConfig) (c : Call) (s : AlertingService)
  : option Alert * AlertingService :=
  createAlert cfg (c_now c) (c_stamp c) (c_rnd c) (c_params c) s.

(** The state after a sequence of [createAlert] calls, oldest first. *)
Definition calls (cfg : MonitoringConfig) (cs : list Call)
    (s : AlertingService) : AlertingService :=
  foldl (λ st c, (call cfg c st).2) s cs.

End Alerting.

(** ** Monitoring routes *)

Module Routes.

(** What [GET /traces/:traceId] answers. *)
Inductive TraceResponse :=
  | NotFound                                   (* 404 Trace not found *)
  | Found (traceId : string) (spans : list Tracing.Span)
          (totalSpans : Z) (duration : Z)       (* 200 *)
  | ServerError.                               (* 500, from the catch *)

(** The handler; [now] is the value [Date.now()] would return. *)
Definition getTraceById (now : Z) (traceId : string)
    (s : Tracing.TracingService) : TraceResponse :=
  match Tracing.getTrace traceId s with
  | JS.Throws _ => ServerError
  | JS.Returns spans =>
      if (length spans =? 0)%nat then NotFound
      else
        Found traceId spans (Z.of_nat (length spans))
          (if (0 <? length spans)%nat
           then match last spans, head spans with
                | Some final, Some first =>
                    JS.or_num (Tracing.endTime final) now
                    - Tracing.startTime first
                | _, _ => 0
                end
           else 0)
  end.

End Routes.

(** ** Generated identifiers *)

Module Ids.

(** One hexadecimal digit, lower case, as [Buffer.toString('hex')] writes
    them. *)
Definition hex_digit (n : N) : ascii :=
  match n with
  | 0%N => "0" | 1%N => "1" | 2%N => "2" | 3%N => "3"
  | 4%N => "4" | 5%N => "5" | 6%N => "6" | 7%N => "7"
  | 8%N => "8" | 9%N => "9" | 10%N => "a" | 11%N => "b"
  | 12%N => "c" | 13%N => "d" | 14%N => "e" | _ => "f"
  end%char.

(** [buffer.toString('hex')]: two digits per byte, high nibble first. *)
Fixpoint toString_hex (bytes : list Byte.byte) : string :=
  match bytes with
  | [] => EmptyString
  | b :: bytes' =>
      String (hex_digit (Byte.to_N b / 16))
        (String (hex_digit (Byte.to_N b mod 16)) (toString_hex bytes'))
  end.

(** [generateTraceId()]: [random] is what [crypto.randomBytes(16)] returns. *)
Definition generateTraceId (random : list Byte.byte) : string :=
  toString_hex random.

(** [generateSpanId()]: [random] is what [crypto.randomBytes(8)] returns. *)
Definition generateSpanId (random : list Byte.byte) : string :=
  toString_hex random.

End Ids.

(** ** Tracing middleware *)

Module TracingMiddleware.
Import Tracing.

(** What the middleware reads of the request. A header that is not sent
    reads as [undefined]. *)
Record Request := mkRequest {
  req_method : string;
  req_path : string;
  req_originalUrl : string;
  req_route_path : option string;         (* req.route?.path *)
  req_traceparent : option string;        (* req.get('traceparent') *)
  req_user_agent : option string;         (* req.get('user-agent') *)
}.

(** [a || b] on strings: [undefined] and the empty string are falsy. *)
Definition or_str (a : option string) (b : string) : string :=
  match a with
  | Some x => if String.eqb x EmptyString then b else x
  | None => b
  end.

Definition truthy_str (a : option string) : bool :=
  match a with
  | Some x => negb (String.eqb x EmptyString)
  | None => false
  end.

Definition operation (req : Request) : string :=
  req_method req +:+ " " +:+ req_path req.

Definition span_tags (req : Request) : gmap string TagValue :=
  {[ "http.method" := TagStr (req_method req);
     "http.url" := TagStr (req_originalUrl req);
     "http.route" := TagStr (or_str (req_route_path req) (req_path req)) ]}.

Definition trace_tags (req : Request) : gmap string TagValue :=
  <[ "http.user_agent" := TagStr (or_str (req_user_agent req) EmptyString) ]>
    (span_tags req).

(** The ids the environment hands out while the middleware runs:
    [parse_sid] to [parseTraceparent], [span_sid] to [startSpan], [tid] and
    [root_sid] to [startTrace], each drawn only if that call is made. *)
Record Entropy := mkEntropy {
  parse_sid : string;
  span_sid : string;
  tid : string;
  root_sid : string;
  draw : Q;
}.

(** The part of [tracingMiddleware] that runs when the request comes in:
    continue the trace of a parsable [traceparent] header, else start a
    new trace. The result is the context attached to the request. *)
Definition on_request (cfg : MonitoringConfig) (e : Entropy) (now : Z)
    (req : Request) (s : TracingService) : TraceContext * TracingService :=
  let continued :=
    if truthy_str (req_traceparent req) then
      match parseTraceparent (parse_sid e) (default EmptyString
                                              (req_traceparent req)) with
      | Some parsed =>
          Some (startSpan cfg (span_sid e) now (ctx_traceId parsed)
                  (or_str (ctx_parentSpanId parsed) (ctx_spanId parsed))
                  (operation req) (Some (span_tags req)) s)
      | None => None
      end
    else None in
  match continued with
  | Some r => r
  | None =>
      startTrace cfg (tid e) (root_sid e) (draw e) now (operation req)
        (Some (trace_tags req)) s
  end.

(** The [traceparent] header set on the response. *)
Definition response_header (ctx : TraceContext) : string :=
  toTraceparent ctx.

(** The wrapped [res.end]: close the request's span. [content_length] is
    what [parseInt] makes of the response's content-length header. *)
Definition on_end (cfg : MonitoringConfig) (now : Z)
    (ship : Transport.FetchResult) (ctx : TraceContext) (statusCode : Z)
    (content_length : Z) (s : TracingService) : JS.outcome TracingService :=
  endSpan cfg now ship (ctx_spanId ctx)
    (if 400 <=? statusCode then error else ok)
    (Some {[ "http.status_code" := TagNum statusCode;
             "http.response_content_length" := TagNum content_length ]})
    s.

End TracingMiddleware.

(** ** Metrics summary *)

Module Summary.
Import Metrics.

(** [`${Math.floor(m.statusCode / 100)}xx`] *)
Definition statusGroup (m : RequestMetric) : string :=
  pretty (statusCode m / 100) +:+ "xx".

(** [counts[key] = (counts[key] || 0) + 1] *)
Definition bump (key : string) (counts : gmap string Z) : gmap string Z :=
  <[key := JS.or_num (counts !! key) 0 + 1]> counts.

Definition byStatus (s : MetricsCollector) : gmap string Z :=
  foldl (λ acc m, bump (statusGroup m) acc) ∅ (requestMetrics s).

(** Keyed by the request method as Node reports it (an upper-case token
    such as GET, never the name of an inherited object property). *)
Definition byMethod (s : MetricsCollector) : gmap string Z :=
  foldl (λ acc m, bump (method m) acc) ∅ (requestMetrics s).

Definition total (s : MetricsCollector) : Z :=
  Z.of_nat (length (requestMetrics s)).

(** [errors.total]: [byStatus['5xx'] || 0] *)
Definition errors_total (s : MetricsCollector) : Z :=
  JS.or_num (byStatus s !! "5xx") 0.

(** [percentile] with the index computed in binary64, for an integral
    rank. *)
Definition percentile_f64 (sorted : list Z) (p : Z) : option Z :=
  if (length sorted =? 0)%nat then Some 0
  else
    let idx := float_rank p (Z.of_nat (length sorted)) - 1 in
    sorted !! Z.to_nat (Z.max 0 idx).

(** The [database] part of the summary, but for the average. *)
Definition queryCount (s : MetricsCollector) : Z := count (dbMetrics s).
Definition slowQueries (s : MetricsCollector) : Z := slowCount (dbMetrics s).

(** An error recorded, with the two clock readings of [recordError]. *)
Record ErrorEvent := mkErrorEvent {
  ev_stamp : Z;
  ev_now : Z;
  ev_message : string;
  ev_path : string;
}.

Definition record_errors (evs : list ErrorEvent) (s : MetricsCollector)
  : MetricsCollector :=
  foldl (λ st e, recordError (ev_stamp e) (ev_now e) (ev_message e)
                   (ev_path e) st) s evs.

Definition record_queries (ds : list Z) (s : MetricsCollector)
  : MetricsCollector :=
  foldl (λ st d, recordDatabaseQuery d st) s ds.

End Summary.

(** ** Alert rules and the error tracker *)

Module AlertRules.
Import Metrics Alerting.

(** The two thresholds of [monitoringConfig] the rules read. *)
Record RuleConfig := mkRuleConfig {
  ERROR_RATE_THRESHOLD : Z;
  RESPONSE_TIME_THRESHOLD_MS : Z;
}.

(** What the environment supplies to one [createAlert] call. *)
Record Env := mkEnv {
  e_now : Z;
  e_stamp : Z;
  e_rnd : string;
}.

Definition error_rate_params (rules : RuleConfig) (errorRate : Z)
  : AlertParams :=
  mkAlertParams error_rate
    (if ERROR_RATE_THRESHOLD rules * 2 <=? errorRate then critical
     else warning)
    "High Error Rate Detected"
    ("Error rate is " +:+ pretty errorRate +:+ " errors/min (threshold: "
     +:+ pretty (ERROR_RATE_THRESHOLD rules) +:+ "/min)")
    (Some [("errorRate", pretty errorRate);
           ("threshold", pretty (ERROR_RATE_THRESHOLD rules))]).

(** [checkErrorRate]: [rate_now] is the clock reading of [getErrorRate]. *)
Definition checkErrorRate (cfg : MonitoringConfig) (rules : RuleConfig)
    (rate_now : Z) (env : Env) (m : MetricsCollector) (s : AlertingService)
  : AlertingService :=
  let errorRate := getErrorRate rate_now m in
  if ERROR_RATE_THRESHOLD rules <=? errorRate
  then (createAlert cfg (e_now env) (e_stamp env) (e_rnd env)
          (error_rate_params rules errorRate) s).2
  else s.

Definition tracker_params (errorRate : Z) (message url : string)
  : AlertParams :=
  mkAlertParams error_rate (if 20 <=? errorRate then critical else warning)
    "High Error Rate"
    (pretty errorRate +:+ " errors in the last minute on " +:+ url)
    (Some [("errorRate", pretty errorRate); ("lastError", message);
           ("path", url)]).

(** The metrics and alerting part of [errorTrackerMiddleware]: record the
    error, read the rate back, alert from 10 errors a minute on. [ev] holds
    the error and the clock readings of [recordError]. *)
Definition errorTracker (cfg : MonitoringConfig) (ev : Summary.ErrorEvent)
    (rate_now : Z) (env : Env) (m : MetricsCollector) (s : AlertingService)
  : MetricsCollector * AlertingService :=
  let m' := recordError (Summary.ev_stamp ev) (Summary.ev_now ev)
              (Summary.ev_message ev) (Summary.ev_path ev) m in
  let errorRate := getErrorRate rate_now m' in
  let s' := if 10 <=? errorRate
            then (createAlert cfg (e_now env) (e_stamp env) (e_rnd env)
                    (tracker_params errorRate (Summary.ev_message ev)
                       (Summary.ev_path ev)) s).2
            else s in
  (m', s').

(** The status the error tracker answers with:
    [err.status || err.statusCode || 500]. *)
Definition tracker_status (status statusCode : option Z) : Z :=
  JS.or_num status (JS.or_num statusCode 500).

End AlertRules.

(** ** More monitoring routes *)

Module MoreRoutes.
Import Tracing.

(** [GET /traces]: the active-span count and the recent spans. [limit] is
    what [parseInt] makes of the query parameter, [None] for [NaN]. *)
Definition getTraces (limit : option Z) (s : TracingService)
  : JS.outcome (Z * list Span) :=
  spans ← getRecentSpans (JS.or_num limit 50) s;
  mret (getActiveSpanCount s, spans).

(** [POST /alerts/:alertId/acknowledge]: the status answered and the
    state left behind. *)
Definition postAcknowledge (alertId : string) (s : Alerting.AlertingService)
  : Z * Alerting.AlertingService :=
  let '(success, s') := Alerting.acknowledgeAlert alertId s in
  (if success then 200 else 404, s').

End MoreRoutes.

(** ** Runs of calls *)

Module Runs.
Import Metrics Alerting AlertRules.

(** One pass through the error tracker, with what the environment
    supplies to it. *)
Record Tracked := mkTracked {
  t_ev : Summary.ErrorEvent;
  t_rate_now : Z;
  t_env : Env;
}.

Definition track (cfg : MonitoringConfig) (x : Tracked)
    (st : MetricsCollector * AlertingService)
  : MetricsCollector * AlertingService :=
  errorTracker cfg (t_ev x) (t_rate_now x) (t_env x) st.1 st.2.

(** The two singletons after a sequence of failed requests. *)
Definition track_all (cfg : MonitoringConfig) (xs : list Tracked)
    (st : MetricsCollector * AlertingService)
  : MetricsCollector * AlertingService :=
  foldl (λ st x, track cfg x st) st xs.

(** The transport after a sequence of [log] calls, each with the way its
    bulk request settles should it flush. *)
Fixpoint logs (xs : list (Transport.FetchResult * Transport.Doc))
    (t : Transport.ElasticsearchTransport)
  : JS.outcome Transport.ElasticsearchTransport :=
  match xs with
  | [] => mret t
  | x :: xs' => t' ← Transport.log x.1 x.2 t; logs xs' t'
  end.

End Runs.

(** * Specification vocabulary

    Invariants, predicates and sample inputs that the properties below are
    stated with. *)

Module TracingSpec.
Import Tracing.

(** The span id carried by the object behind an identity. *)
Definition id_of (s : TracingService) (r : nat) : option string :=
  spanId <$> objects s !! r.

(** Well-formed states: the active map has one entry per id, each entry
    leads to a live object carrying that id, the completed array holds live
    objects and at most [maxCompletedSpans] of them, and no id is in both
    stores. *)
Record wf (s : TracingService) : Prop := mk_wf {
  wf_keys : NoDup (active_ids s);
  wf_active : ∀ k r, (k, r) ∈ activeSpans s → id_of s r = Some k;
  wf_completed : ∀ r, r ∈ completedSpans s → (r < length (objects s))%nat;
  wf_disjoint : ∀ k, k ∈ active_ids s → k ∉ completed_ids s;
  wf_cap : Z.of_nat (length (completedSpans s)) ≤ maxCompletedSpans;
}.

(** What the completed array becomes when the object [r] is pushed. *)
Definition pushed_completed (s : TracingService) (r : nat) : list nat :=
  if maxCompletedSpans <? Z.of_nat (length (completedSpans s ++ [r]))
  then JS.slice (completedSpans s ++ [r]) (- maxCompletedSpans / 2) None
  else completedSpans s ++ [r].

(** Tracing enabled, every trace sampled, span export off. *)
Definition tracing_on : MonitoringConfig :=
  mkMonitoringConfig true 1 "payd-backend" false.

(** The state after one [startTrace]: a single active span. *)
Definition one_active : TracingService :=
  (startTrace tracing_on "4bf92f3577b34da6a3ce929d0e0e4736"
     "00f067aa0ba902b7" 0 1000 "GET /x" None init).2.

(** The span objects behind a list of identities. *)
Definition held (s : TracingService) (rs : list nat) : list Span :=
  omap (λ r, objects s !! r) rs.

(** The spans of a trace as the service holds them, before sorting. *)
Definition trace_spans (tid : string) (s : TracingService) : list Span :=
  List.filter (of_trace tid) (held s (map snd (activeSpans s)))
  ++ List.filter (of_trace tid) (held s (completedSpans s)).

(** The comparator [getTrace] sorts with. *)
Definition by_startTime (a b : Span) : Z := startTime a - startTime b.

End TracingSpec.

Module TraceparentSpec.
Import Tracing.

(** Whether the separator occurs in a string. *)
Fixpoint has_sep (sep : ascii) (s : string) : bool :=
  match s with
  | EmptyString => false
  | String c s' => Ascii.eqb c sep || has_sep sep s'
  end.

(** What [parseTraceparent] accepts: four dash-separated fields, the second
    of 32 characters and the third of 16. *)
Definition length_rule (header tid parent : string) : Prop :=
  ∃ version flags,
    header = version +:+ "-" +:+ tid +:+ "-" +:+ parent +:+ "-" +:+ flags ∧
    has_sep "-" version = false ∧ has_sep "-" tid = false ∧
    has_sep "-" parent = false ∧ has_sep "-" flags = false ∧
    String.length tid = 32%nat ∧ String.length parent = 16%nat.

(** Hexadecimal digits, either case. *)
Definition is_hex (c : ascii) : bool :=
  let n := nat_of_ascii c in
  ((48 <=? n) && (n <=? 57) || (97 <=? n) && (n <=? 102)
   || (65 <=? n) && (n <=? 70))%nat.

Fixpoint all_hex (s : string) : bool :=
  match s with
  | EmptyString => true
  | String c s' => is_hex c && all_hex s'
  end.

(** The rule as the design document words it: the two ids are hexadecimal. *)
Definition hex_rule (header tid parent : string) : Prop :=
  length_rule header tid parent ∧ all_hex tid = true ∧ all_hex parent = true.

End TraceparentSpec.

Module AlertingSpec.
Import Alerting.

(** What the alert array becomes when [a] is pushed. *)
Definition pushed_alerts (s : AlertingService) (a : Alert) : list Alert :=
  if maxAlerts <? Z.of_nat (length (alerts s ++ [a]))
  then JS.slice (alerts s ++ [a]) (- maxAlerts / 2) None
  else alerts s ++ [a].

(** The alert object a successful [createAlert] builds. *)
Definition new_alert (now stamp : Z) (rnd : string) (params : AlertParams)
  : Alert :=
  mkAlert ("alert-" +:+ pretty now +:+ "-" +:+ rnd) (p_type params)
    (p_severity params) (p_title params) (p_message params) stamp
    (default [] (p_metadata params)) false.

(** The key [k] was last stamped at [t1] or later. *)
Definition stamped_since (k : string) (t1 : Z) (s : AlertingService) : Prop :=
  ∃ t, lastAlertTime s !! k = Some t ∧ t1 ≤ t.

(** A cooldown of five minutes, no e-mail. *)
Definition cooldown_config : MonitoringConfig :=
  mkMonitoringConfig 300000 false.

Definition error_burst (now : Z) (rnd : string) : Call :=
  mkCall now now rnd
    (mkAlertParams error_rate critical "High Error Rate Detected"
       "Error rate is 25 errors/min (threshold: 10/min)" None).

Definition slow_responses (now : Z) (rnd : string) : Call :=
  mkCall now now rnd
    (mkAlertParams response_time warning "Slow Response Times Detected"
       "P95 response time is 2300ms (threshold: 2000ms)" None).

(** The comparator [getAlerts] sorts with. *)
Definition newest_first (a b : Alert) : Z := timestamp b - timestamp a.

(** Fifty-one stored alerts, one per second. *)
Definition many_alerts : AlertingService :=
  mkAlertingService
    (map (λ i, mkAlert ("alert-" +:+ pretty i) custom info "t" "m"
                 (1700000000000 + 1000 * Z.of_nat i) [] false)
       (seq 0 51))
    ∅.

End AlertingSpec.

Module ExportSpec.
Import Transport.

(** A request that did not succeed: rejected, or answered outside 2xx. *)
Definition failed (r : FetchResult) : Prop :=
  match r with
  | Responded o _ _ => o = false
  | Rejected _ => True
  end.

End ExportSpec.

Module RoutesSpec.
Import Tracing Routes.

(** The root span of a trace is the one without a parent. *)
Definition is_root (sp : Span) : bool :=
  match parentSpanId sp with
  | None => true
  | Some _ => false
  end.

(** The latest end time among the spans; a span that is still open counts
    with the current time. *)
Definition latest_end (now : Z) (spans : list Span) : Z :=
  foldr (λ sp acc, Z.max (default now (endTime sp)) acc)
    (default now (head spans ≫= endTime)) spans.

(** The duration as the design document words it: from the start of the
    root span to the latest end time among the spans, or to the current
    time if the trace is still open. *)
Definition documented_duration (now : Z) (spans : list Span) : option Z :=
  root ← List.find is_root spans;
  Some (latest_end now spans - startTime root).

(** Tracing enabled, every trace sampled, span export off. *)
Definition payroll_config : MonitoringConfig :=
  mkMonitoringConfig true 1 "payd-backend" false.

(** A request whose root span encloses one child span: the root runs from
    1000 to 1100, the child from 1010 to 1050. *)
Definition nested_calls : list call :=
  [ StartTrace "4bf92f3577b34da6a3ce929d0e0e4736" "00f067aa0ba902b7" 0 1000
      "POST /api/payroll" None;
    StartSpan "b7ad6b7169203331" 1010 "4bf92f3577b34da6a3ce929d0e0e4736"
      "00f067aa0ba902b7" "db.query" None;
    EndSpan 1050 (Transport.Responded true 201 "Created") "b7ad6b7169203331"
      ok None;
    EndSpan 1100 (Transport.Responded true 201 "Created") "00f067aa0ba902b7"
      ok None ].

Definition root_span : Span :=
  mkSpan "00f067aa0ba902b7" "4bf92f3577b34da6a3ce929d0e0e4736" None
    "POST /api/payroll" "payd-backend" 1000 (Some 1100) (Some 100) ok ∅ [].

Definition child_span : Span :=
  mkSpan "b7ad6b7169203331" "4bf92f3577b34da6a3ce929d0e0e4736"
    (Some "00f067aa0ba902b7") "db.query" "payd-backend" 1010 (Some 1050)
    (Some 40) ok ∅ [].

Definition nested_trace : TracingService :=
  mkTracingService [root_span; child_span] [] [1%nat; 0%nat].

End RoutesSpec.

Module RulesSpec.
Import Metrics Summary Alerting AlertingSpec AlertRules Runs.

(** All clock readings of the pass lie in the window [[T0, T0 + W)]. *)
Definition in_burst (T0 W : Z) (x : Tracked) : Prop :=
  T0 ≤ ev_stamp (t_ev x) ∧ ev_now (t_ev x) < T0 + W ∧
  t_rate_now x < T0 + W ∧
  T0 ≤ e_now (t_env x) < T0 + W.

(** The alert the tracker builds on a pass that reads the rate [k]. *)
Definition tracked_alert (k : Z) (x : Tracked) : Alert :=
  new_alert (e_now (t_env x)) (e_stamp (t_env x)) (e_rnd (t_env x))
    (tracker_params k (ev_message (t_ev x)) (ev_path (t_ev x))).

Definition entry (x : Tracked) : ErrorEntry :=
  mkErrorEntry (ev_message (t_ev x)) (ev_path (t_ev x)) (ev_stamp (t_ev x)).

(** What a burst leaves in the alert array: the alert of the tenth pass and
    the alert of the twentieth. *)
Definition burst_alerts (xs : list Tracked) : list Alert :=
  from_option (λ x, [tracked_alert 10 x]) [] (xs !! 9%nat)
  ++ from_option (λ x, [tracked_alert 20 x]) [] (xs !! 19%nat).

End RulesSpec.

(** * Properties *)

(** ** Facts about the runtime helpers *)

Module JSFacts.

Section Sorting.
Context {A : Type} (cmp : A → A → Z) (R : relation A).
Hypothesis R_trans : Transitive R.
Hypothesis cmp_le : ∀ x y, cmp x y ≤ 0 → R x y.
Hypothesis cmp_gt : ∀ x y, 0 < cmp x y → R y x.

Lemma sort_insert_perm (x : A) (l : list A) : JS.sort_insert cmp x l ≡ₚ x :: l.
Proof.
  induction l as [|y l IH]; simpl; [done|].
  destruct (0 <? cmp x y); [|done].
  rewrite IH. apply Permutation_swap.
Qed.

Lemma sort_perm (l : list A) : JS.sort cmp l ≡ₚ l.
Proof.
  induction l as [|x l IH]; simpl; [done|].
  unfold JS.sort in *. simpl. rewrite sort_insert_perm. by rewrite IH.
Qed.

Lemma sort_insert_sorted (x : A) (l : list A) :
  StronglySorted R l → StronglySorted R (JS.sort_insert cmp x l).
Proof.
  induction 1 as [|y l Hl IH Hy]; simpl.
  - repeat constructor.
  - destruct (Z.ltb_spec 0 (cmp x y)) as [Hgt|Hle].
    + constructor; [done|].
      rewrite sort_insert_perm. constructor; [by apply cmp_gt|done].
    + assert (R x y) by by apply cmp_le.
      constructor; [by constructor|].
      constructor; [done|].
      eapply Forall_impl; [exact Hy|]. intros z Hz. by etrans.
Qed.

Lemma sort_sorted (l : list A) : StronglySorted R (JS.sort cmp l).
Proof.
  induction l as [|x l IH]; [constructor|].
  unfold JS.sort in *. simpl. by apply sort_insert_sorted.
Qed.

End Sorting.

Lemma sort_length {A} (cmp : A → A → Z) (l : list A) :
  length (JS.sort cmp l) = length l.
Proof. apply Permutation_length, sort_perm. Qed.

(** In a sorted list a later position holds a later element. *)
Lemma sorted_lookup_mono {A} (R : relation A) `{!Reflexive R} (l : list A)
    (i j : nat) (a b : A) :
  StronglySorted R l → (i ≤ j)%nat → l !! i = Some a → l !! j = Some b → R a b.
Proof.
  intros Hs. revert i j. induction Hs as [|x l Hl IH Hx]; intros i j Hij Hi Hj.
  - by rewrite lookup_nil in Hi.
  - destruct i as [|i], j as [|j]; simpl in *; simplify_eq.
    + reflexivity.
    + rewrite Forall_forall in Hx. apply Hx. by eapply list_elem_of_lookup_2.
    + lia.
    + eapply IH; [|done..]. lia.
Qed.

Lemma slice_from_negative {A} (l : list A) (k : Z) :
  0 < k → JS.slice l (- k) None = drop (length l - Z.to_nat k) l.
Proof.
  intros Hk. unfold JS.slice, JS.rel_index.
  destruct (Z.ltb_spec (- k) 0); [|lia].
  replace (Z.to_nat (Z.max (Z.of_nat (length l) + - k) 0))
    with (length l - Z.to_nat k)%nat by lia.
  apply take_ge. rewrite length_drop. lia.
Qed.

Lemma slice_prefix {A} (l : list A) (k : Z) :
  0 ≤ k → JS.slice l 0 (Some k) = take (Z.to_nat k) l.
Proof.
  intros Hk. unfold JS.slice, JS.rel_index.
  destruct (Z.ltb_spec 0 0); [lia|].
  destruct (Z.ltb_spec k 0); [lia|].
  replace (Z.to_nat (Z.min 0 (Z.of_nat (length l)))) with 0%nat by lia.
  rewrite Nat.sub_0_r, drop_0.
  destruct (Z.le_ge_cases k (Z.of_nat (length l))).
  - by rewrite Z.min_l.
  - rewrite Z.min_r, Nat2Z.id by done.
    rewrite !take_ge; [done|lia..].
Qed.

(** The eviction idiom [if (a.length > cap) a = a.slice(-k)]. *)
Section Halving.
Context {A : Type} (cap k : Z) (l : list A).
Hypothesis k_pos : 0 < k.
Hypothesis k_le_cap : k ≤ cap.

Let kept : list A :=
  if cap <? Z.of_nat (length l) then JS.slice l (- k) None else l.

Lemma halve_over :
  cap < Z.of_nat (length l) →
  kept = drop (length l - Z.to_nat k) l ∧ Z.of_nat (length kept) = k.
Proof using k_pos k_le_cap.
  intros Hover. unfold kept.
  destruct (Z.ltb_spec cap (Z.of_nat (length l))); [|lia].
  rewrite slice_from_negative by done. split; [done|].
  rewrite length_drop. lia.
Qed.

Lemma halve_within : Z.of_nat (length l) ≤ cap → kept = l.
Proof.
  intros Hin. unfold kept.
  by destruct (Z.ltb_spec cap (Z.of_nat (length l))); [lia|].
Qed.

Lemma halve_suffix : kept `suffix_of` l.
Proof using k_pos.
  unfold kept. destruct (Z.ltb_spec cap (Z.of_nat (length l))); [|done].
  rewrite slice_from_negative by done. apply suffix_drop.
Qed.

Lemma halve_length : Z.of_nat (length kept) ≤ cap.
Proof using k_pos k_le_cap.
  destruct (Z.lt_ge_cases cap (Z.of_nat (length l))) as [Hover|Hin].
  - destruct (halve_over Hover) as [_ ->]. done.
  - rewrite halve_within; lia.
Qed.

End Halving.

End JSFacts.

(** ** Metrics collector: percentiles *)

Module MetricsFacts.
Import Metrics.

Lemma rank_mono (p q : Q) (n : nat) :
  (p <= q)%Q →
  Qceiling (p / 100 * inject_Z (Z.of_nat n))
  ≤ Qceiling (q / 100 * inject_Z (Z.of_nat n)).
Proof.
  intros Hpq. apply Qceiling_resp_le.
  apply Qmult_le_compat_r.
  - apply Qmult_le_compat_r; [done|]. by vm_compute.
  - change 0%Q with (inject_Z 0). rewrite <- Zle_Qle. lia.
Qed.

Lemma rank_le_length (q : Q) (n : nat) :
  (q <= 100)%Q → Qceiling (q / 100 * inject_Z (Z.of_nat n)) ≤ Z.of_nat n.
Proof.
  intros Hq.
  rewrite <- (Qceiling_Z (Z.of_nat n)) at 2.
  apply Qceiling_resp_le.
  rewrite <- (Qmult_1_l (inject_Z (Z.of_nat n))) at 2.
  apply Qmult_le_compat_r.
  - apply Qle_shift_div_r; [by vm_compute|]. by rewrite Qmult_1_l.
  - change 0%Q with (inject_Z 0). rewrite <- Zle_Qle. lia.
Qed.

Lemma durations_sorted (ds : list Z) :
  StronglySorted Z.le (JS.sort (λ a b, a - b) ds).
Proof. apply JSFacts.sort_sorted; [apply _|intros; lia..]. Qed.

(** On a non-empty array and for a rank of at most 100 the index read by
    [percentile] is within bounds. *)
Lemma percentile_index_lt (n : nat) (p : Q) :
  (0 < n)%nat → (p <= 100)%Q →
  (Z.to_nat (Z.max 0 (Qceiling (p / 100 * inject_Z (Z.of_nat n)) - 1)) < n)%nat.
Proof. intros Hn Hp. pose proof (rank_le_length p n Hp). lia. Qed.

Lemma percentile_nonempty (l : list Z) (p : Q) :
  l ≠ [] →
  percentile l p
  = l !! Z.to_nat
           (Z.max 0 (Qceiling (p / 100 * inject_Z (Z.of_nat (length l))) - 1)).
Proof. intros Hl. unfold percentile. by destruct l. Qed.

(** The two ranks [getSummary] asks for, computed in binary64 as the engine
    does, hit the same index as the exact product for every buffer size up
    to the retention cap. *)
Lemma float_rank_exact_upto_cap :
  forallb (λ n, (float_rank 95 n =? exact_rank 95 n)
                && (float_rank 99 n =? exact_rank 99 n))
    (map Z.of_nat (seq 0 (Z.to_nat 10001))) = true.
Proof. vm_compute. reflexivity. Qed.

Lemma float_rank_exact (n : Z) :
  0 ≤ n ≤ maxMetricsRetained →
  float_rank 95 n = exact_rank 95 n ∧ float_rank 99 n = exact_rank 99 n.
Proof.
  unfold maxMetricsRetained. intros Hn.
  pose proof float_rank_exact_upto_cap as H.
  rewrite forallb_forall in H.
  specialize (H n). rewrite andb_true_iff, !Z.eqb_eq in H. apply H.
  apply in_map_iff. exists (Z.to_nat n). split; [lia|].
  apply in_seq. lia.
Qed.

(** Binary64 and exact arithmetic part ways for other ranks. *)
Example float_rank_inexact : float_rank 7 100 = 8 ∧ exact_rank 7 100 = 7.
Proof. vm_compute. done. Qed.



Example percentile_values :
  percentile (JS.sort (λ a b, a - b) [30; 10; 20]) 50 = Some 20 ∧
  percentile (JS.sort (λ a b, a - b) [30; 10; 20]) 95 = Some 30 ∧
  percentile (JS.sort (λ a b, a - b) [30; 10; 20]) 0 = Some 10 ∧
  percentile [] 95 = Some 0.
Proof. by vm_compute. Qed.

(** Past rank 100 the read falls off the end of the array. *)
Example percentile_rank_above_100 : percentile [10; 20; 30] 200 = None.
Proof. by vm_compute. Qed.

Lemma p95_is_percentile (s : MetricsCollector) :
  p95DurationMs s
  = percentile (JS.sort (λ a b, a - b) (map durationMs (requestMetrics s))) 95.
Proof. reflexivity. Qed.

End MetricsFacts.

(** ** Tracing service: the insertion-ordered map *)

Module MapFacts.
Import Tracing.

Section Map.
Context {V : Type}.
Implicit Types (m : list (string * V)) (k : string) (v : V).

(** A key that is present splits the map around its entry. *)
Lemma Map_get_Some m k v :
  Map_get k m = Some v →
  ∃ m1 m2, m = m1 ++ ((k, v) :: m2) ∧ (k ∉ map fst m1) ∧
           Map_delete k m = m1 ++ m2 ∧
           ∀ v', Map_set k v' m = m1 ++ ((k, v') :: m2).
Proof.
  induction m as [|[k' v'] m IH]; simpl; [done|].
  destruct (String.eqb_spec k' k) as [->|Hne].
  - intros [= ->]. exists [], m. simpl.
    split_and!; [done|apply not_elem_of_nil|done..].
  - intros Hget. destruct (IH Hget) as (m1 & m2 & -> & Hk & Hdel & Hset).
    exists ((k', v') :: m1), m2. simpl. split_and!; [done| |by rewrite Hdel|].
    + apply not_elem_of_cons. split; [congruence|done].
    + intros v''. by rewrite Hset.
Qed.

Lemma Map_get_None m k :
  Map_get k m = None →
  (k ∉ map fst m) ∧ Map_delete k m = m ∧ ∀ v, Map_set k v m = m ++ [(k, v)].
Proof.
  induction m as [|[k' v'] m IH]; simpl.
  - intros _. split_and!; [apply not_elem_of_nil|done..].
  - destruct (String.eqb_spec k' k) as [->|Hne]; [done|].
    intros Hget. destruct (IH Hget) as (Hk & Hdel & Hset).
    split_and!; [|by rewrite Hdel|].
    { apply not_elem_of_cons. split; [congruence|done]. }
    intros v. by rewrite Hset.
Qed.

Lemma Map_get_elem_of m k v : Map_get k m = Some v → (k, v) ∈ m.
Proof.
  intros H. destruct (Map_get_Some _ _ _ H) as (m1 & m2 & -> & _).
  apply elem_of_app. right. apply list_elem_of_here.
Qed.

Lemma Map_get_is_Some m k : k ∈ map fst m → is_Some (Map_get k m).
Proof.
  intros Hk. destruct (Map_get k m) eqn:E; [by eexists|].
  by destruct (Map_get_None _ _ E) as (Hn & _).
Qed.

Lemma Map_set_elem_of m k v k' v' :
  (k', v') ∈ Map_set k v m → (k', v') = (k, v) ∨ (k', v') ∈ m.
Proof.
  destruct (Map_get k m) as [v0|] eqn:E.
  - destruct (Map_get_Some _ _ _ E) as (m1 & m2 & -> & _ & _ & ->).
    rewrite !elem_of_app, !elem_of_cons. tauto.
  - destruct (Map_get_None _ _ E) as (_ & _ & ->).
    rewrite elem_of_app, list_elem_of_singleton. tauto.
Qed.

Lemma Map_set_keys m k v k' :
  k' ∈ map fst (Map_set k v m) → k' = k ∨ k' ∈ map fst m.
Proof.
  rewrite !list_elem_of_fmap. intros ([k0 v0] & -> & Hin).
  apply Map_set_elem_of in Hin as [[= -> ->]|Hin]; [by left|].
  right. by exists (k0, v0).
Qed.

Lemma Map_set_NoDup m k v :
  NoDup (map fst m) → NoDup (map fst (Map_set k v m)).
Proof.
  destruct (Map_get k m) as [v0|] eqn:E.
  - destruct (Map_get_Some _ _ _ E) as (m1 & m2 & -> & _ & _ & ->).
    by rewrite !map_app.
  - destruct (Map_get_None _ _ E) as (Hk & _ & ->).
    rewrite map_app. simpl. intros Hnd.
    apply NoDup_app. split_and!; [done| |apply NoDup_singleton].
    intros x Hx ->%list_elem_of_singleton. done.
Qed.

Lemma Map_set_get m k v : Map_get k (Map_set k v m) = Some v.
Proof.
  induction m as [|[k' v'] m IH]; simpl.
  - by rewrite String.eqb_refl.
  - destruct (String.eqb_spec k' k) as [->|Hne]; simpl.
    + by rewrite String.eqb_refl.
    + by destruct (String.eqb_spec k' k).
Qed.

Lemma Map_delete_elem_of m k k' v' :
  (k', v') ∈ Map_delete k m → (k', v') ∈ m.
Proof.
  destruct (Map_get k m) as [v0|] eqn:E.
  - destruct (Map_get_Some _ _ _ E) as (m1 & m2 & -> & _ & -> & _).
    rewrite !elem_of_app, elem_of_cons. tauto.
  - by destruct (Map_get_None _ _ E) as (_ & -> & _).
Qed.

Lemma Map_delete_NoDup m k :
  NoDup (map fst m) →
  NoDup (map fst (Map_delete k m)) ∧ (k ∉ map fst (Map_delete k m)).
Proof.
  destruct (Map_get k m) as [v0|] eqn:E.
  - destruct (Map_get_Some _ _ _ E) as (m1 & m2 & -> & Hk & -> & _).
    rewrite !map_app. simpl.
    rewrite !NoDup_app, NoDup_cons, not_elem_of_app.
    intros (H1 & H12 & H2 & H3). split_and!; try done.
    + intros x Hx Hx2. apply (H12 x Hx). by right.
  - by destruct (Map_get_None _ _ E) as (Hk & -> & _).
Qed.

Lemma Map_get_not_elem_of m k : k ∉ map fst m → Map_get k m = None.
Proof.
  intros Hk. destruct (Map_get k m) as [v|] eqn:E; [|done].
  exfalso. apply Hk, list_elem_of_fmap. exists (k, v).
  split; [done|]. by apply Map_get_elem_of.
Qed.

End Map.
End MapFacts.

(** ** Tracing service: well-formed states *)

Module TracingFacts.
Import Tracing TracingSpec MapFacts.

Lemma completed_ids_eq (s : TracingService) :
  completed_ids s = omap (id_of s) (completedSpans s).
Proof. reflexivity. Qed.

Lemma wf_init : wf init.
Proof.
  split; simpl.
  - constructor.
  - intros k r H. by apply elem_of_nil in H.
  - intros r H. by apply elem_of_nil in H.
  - intros k H. by apply elem_of_nil in H.
  - done.
Qed.

Lemma id_of_lt (s : TracingService) (r : nat) (k : string) :
  id_of s r = Some k → (r < length (objects s))%nat.
Proof.
  unfold id_of. intros H. apply lookup_lt_is_Some.
  destruct (objects s !! r); [by eexists|done].
Qed.

(** No object is shared between the active map and the completed array. *)
Lemma wf_unshared (s : TracingService) (k : string) (r : nat) :
  wf s → (k, r) ∈ activeSpans s → r ∉ completedSpans s.
Proof.
  intros Hwf Hin Hr.
  apply (wf_disjoint s Hwf k).
  - apply list_elem_of_fmap. by exists (k, r).
  - apply list_elem_of_omap. exists r. split; [done|].
    by apply (wf_active s Hwf).
Qed.

(** An in-place update that keeps the span id keeps every [id_of]. *)
Lemma id_of_update (s : TracingService) (r : nat) (sp sp' : Span)
    (act : list (string * nat)) (comp : list nat) (r' : nat) :
  objects s !! r = Some sp → spanId sp' = spanId sp →
  id_of (mkTracingService (<[r := sp']> (objects s)) act comp) r' = id_of s r'.
Proof.
  intros Hr Hid. unfold id_of. simpl.
  destruct (decide (r = r')) as [<-|Hne].
  - rewrite list_lookup_insert_eq by by eapply lookup_lt_Some.
    rewrite Hr. simpl. by rewrite Hid.
  - by rewrite list_lookup_insert_ne.
Qed.

Lemma completed_ids_ext (s s' : TracingService) :
  completedSpans s' = completedSpans s →
  (∀ r, r ∈ completedSpans s → id_of s' r = id_of s r) →
  completed_ids s' = completed_ids s.
Proof.
  intros Hc Hid. rewrite !completed_ids_eq, Hc.
  revert Hid. generalize (completedSpans s). intros l.
  induction l as [|r l IH]; intros Hid; [done|].
  change (omap ?f (r :: l)) with
    (match f r with Some y => y :: omap f l | None => omap f l end).
  rewrite (Hid r) by apply list_elem_of_here.
  rewrite IH; [done|]. intros r' Hr'. apply Hid. by apply list_elem_of_further.
Qed.

Lemma pushed_completed_suffix (s : TracingService) (r : nat) :
  pushed_completed s r `suffix_of` completedSpans s ++ [r].
Proof. by apply (JSFacts.halve_suffix maxCompletedSpans 2500). Qed.

Lemma pushed_completed_length (s : TracingService) (r : nat) :
  Z.of_nat (length (pushed_completed s r)) ≤ maxCompletedSpans.
Proof. by apply (JSFacts.halve_length maxCompletedSpans 2500). Qed.

Lemma pushed_completed_elem_of (s : TracingService) (r r' : nat) :
  r' ∈ pushed_completed s r → r' ∈ completedSpans s ∨ r' = r.
Proof.
  intros Hin.
  destruct (pushed_completed_suffix s r) as [pre Heq].
  assert (r' ∈ completedSpans s ++ [r]) as Hin'
    by (rewrite Heq; apply elem_of_app; by right).
  apply elem_of_app in Hin' as [?|?%list_elem_of_singleton]; auto.
Qed.

Lemma endSpan_inactive cfg now ship sid st tgs (s : TracingService) :
  Map_get sid (activeSpans s) = None →
  endSpan cfg now ship sid st tgs s = JS.Returns s.
Proof. intros H. unfold endSpan. by rewrite H. Qed.

Lemma endSpan_active cfg now ship sid st tgs (s : TracingService) r sp :
  Map_get sid (activeSpans s) = Some r → objects s !! r = Some sp →
  endSpan cfg now ship sid st tgs s
  = JS.Returns (mkTracingService (<[r := close_span now st tgs sp]> (objects s))
                  (Map_delete sid (activeSpans s)) (pushed_completed s r)).
Proof. intros Hget Hr. unfold endSpan, read. by rewrite Hget, Hr. Qed.

(** In a well-formed state an active id leads to a live object of that id. *)
Lemma wf_active_object (s : TracingService) sid r :
  wf s → Map_get sid (activeSpans s) = Some r →
  ∃ sp, objects s !! r = Some sp ∧ spanId sp = sid.
Proof.
  intros Hwf Hget%Map_get_elem_of.
  pose proof (wf_active s Hwf _ _ Hget) as Hid. unfold id_of in Hid.
  destruct (objects s !! r) as [sp|]; [|done].
  exists sp. split; [done|]. by injection Hid.
Qed.

Lemma wf_register (s : TracingService) (sp : Span) :
  wf s → spanId sp ∉ completed_ids s → wf (register sp s).
Proof.
  intros Hwf Hnew.
  assert (Hold : ∀ r, (r < length (objects s))%nat →
                      id_of (register sp s) r = id_of s r).
  { intros r Hr. unfold id_of, register. simpl. by rewrite lookup_app_l. }
  assert (Hcomp : completed_ids (register sp s) = completed_ids s).
  { apply completed_ids_ext; [done|]. intros r Hr. apply Hold.
    by apply (wf_completed s Hwf). }
  split.
  - apply Map_set_NoDup, (wf_keys s Hwf).
  - intros k r Hin. apply Map_set_elem_of in Hin as [[= -> ->]|Hin].
    + unfold id_of, register. simpl.
      by rewrite lookup_app_r, Nat.sub_diag by done.
    + pose proof (wf_active s Hwf _ _ Hin) as Hid.
      rewrite Hold; [done|]. by eapply id_of_lt.
  - intros r Hr. unfold register. simpl. rewrite length_app. simpl.
    pose proof (wf_completed s Hwf r Hr). lia.
  - intros k Hk. rewrite Hcomp.
    apply Map_set_keys in Hk as [->|Hk]; [done|]. by apply (wf_disjoint s Hwf).
  - apply (wf_cap s Hwf).
Qed.

Lemma wf_endSpan cfg now ship sid st tgs (s s' : TracingService) :
  wf s → endSpan cfg now ship sid st tgs s = JS.Returns s' → wf s'.
Proof.
  intros Hwf. destruct (Map_get sid (activeSpans s)) as [r|] eqn:Hget.
  2: { rewrite endSpan_inactive by done. by intros [= <-]. }
  destruct (wf_active_object s sid r Hwf Hget) as (sp & Hr & Hsid).
  rewrite (endSpan_active _ _ _ _ _ _ _ _ _ Hget Hr). intros [= <-].
  assert (Hid : ∀ r', id_of (mkTracingService
                        (<[r := close_span now st tgs sp]> (objects s))
                        (Map_delete sid (activeSpans s)) (pushed_completed s r)) r'
                      = id_of s r')
    by (intros r'; by apply (id_of_update s r sp)).
  destruct (Map_delete_NoDup (activeSpans s) sid (wf_keys s Hwf)) as [Hnd Hgone].
  split; simpl.
  - exact Hnd.
  - intros k r' Hin%Map_delete_elem_of. rewrite Hid. by apply (wf_active s Hwf).
  - intros r' Hin. rewrite length_insert.
    apply pushed_completed_elem_of in Hin as [Hin| ->].
    + by apply (wf_completed s Hwf).
    + by eapply lookup_lt_Some.
  - intros k Hk Hc. unfold active_ids in Hk. simpl in Hk.
    rewrite completed_ids_eq in Hc. simpl in Hc.
    apply list_elem_of_omap in Hc as (r' & Hin & Hk').
    rewrite Hid in Hk'.
    apply pushed_completed_elem_of in Hin as [Hin| ->].
    + apply (wf_disjoint s Hwf k).
      * apply list_elem_of_fmap in Hk as ([k0 r0] & -> & Hin0).
        apply Map_delete_elem_of in Hin0.
        apply list_elem_of_fmap. by exists (k0, r0).
      * apply list_elem_of_omap. by exists r'.
    + unfold id_of in Hk'. rewrite Hr in Hk'. simpl in Hk'.
      injection Hk' as <-. by rewrite Hsid in Hk.
  - apply pushed_completed_length.
Qed.

(** The array after a push keeps a tail of the old array, then [r]. *)
Lemma pushed_completed_eq (s : TracingService) (r : nat) :
  ∃ n, pushed_completed s r = drop n (completedSpans s) ++ [r].
Proof.
  unfold pushed_completed.
  destruct (Z.ltb_spec maxCompletedSpans
              (Z.of_nat (length (completedSpans s ++ [r])))) as [Hover|_].
  - change (- maxCompletedSpans / 2) with (Z.opp 2500).
    rewrite JSFacts.slice_from_negative by done.
    exists (length (completedSpans s ++ [r]) - Z.to_nat 2500)%nat.
    rewrite drop_app_le; [done|].
    rewrite length_app in *. simpl in *. unfold maxCompletedSpans in Hover. lia.
  - by exists 0%nat.
Qed.

Lemma wf_update (s : TracingService) (r : nat) (sp sp' : Span) :
  wf s → objects s !! r = Some sp → spanId sp' = spanId sp →
  wf (mkTracingService (<[r := sp']> (objects s)) (activeSpans s)
        (completedSpans s)).
Proof.
  intros Hwf Hr Hid.
  assert (Hids : ∀ r', id_of (mkTracingService (<[r := sp']> (objects s))
                          (activeSpans s) (completedSpans s)) r' = id_of s r')
    by (intros r'; by apply (id_of_update s r sp)).
  assert (Hcomp : completed_ids (mkTracingService (<[r := sp']> (objects s))
                    (activeSpans s) (completedSpans s)) = completed_ids s)
    by (apply completed_ids_ext; [done|by intros]).
  split.
  - apply (wf_keys s Hwf).
  - intros k r' Hin. rewrite Hids. by apply (wf_active s Hwf).
  - intros r' Hin. simpl. rewrite length_insert. by apply (wf_completed s Hwf).
  - intros k Hk. rewrite Hcomp. by apply (wf_disjoint s Hwf).
  - apply (wf_cap s Hwf).
Qed.

Lemma addSpanLog_inactive now sid msg data (s : TracingService) :
  Map_get sid (activeSpans s) = None →
  addSpanLog now sid msg data s = JS.Returns s.
Proof. intros H. unfold addSpanLog. by rewrite H. Qed.

Lemma addSpanTags_inactive sid tgs (s : TracingService) :
  Map_get sid (activeSpans s) = None → addSpanTags sid tgs s = JS.Returns s.
Proof. intros H. unfold addSpanTags. by rewrite H. Qed.

Lemma addSpanLog_active now sid msg data (s : TracingService) r sp :
  Map_get sid (activeSpans s) = Some r → objects s !! r = Some sp →
  addSpanLog now sid msg data s
  = JS.Returns (mkTracingService
                  (<[r := add_log (mkLogEntry now msg data) sp]> (objects s))
                  (activeSpans s) (completedSpans s)).
Proof. intros Hget Hr. unfold addSpanLog, read. by rewrite Hget, Hr. Qed.

Lemma addSpanTags_active sid tgs (s : TracingService) r sp :
  Map_get sid (activeSpans s) = Some r → objects s !! r = Some sp →
  addSpanTags sid tgs s
  = JS.Returns (mkTracingService (<[r := add_tags tgs sp]> (objects s))
                  (activeSpans s) (completedSpans s)).
Proof. intros Hget Hr. unfold addSpanTags, read. by rewrite Hget, Hr. Qed.

(** Every call preserves well-formedness, given a new span id. *)
Lemma wf_run cfg (c : call) (s s' : TracingService) :
  wf s → generated_id_is_new c s → run cfg c s = JS.Returns s' → wf s'.
Proof.
  intros Hwf Hnew. destruct c as [tid sid draw now name tgs
    | sid now tid parent name tgs | now ship sid st tgs
    | now sid msg data | sid tgs]; simpl in *.
  - intros [= <-]. destruct (shouldSample cfg draw); [|done].
    by apply wf_register.
  - intros [= <-]. destruct (enabled cfg); [|done]. by apply wf_register.
  - by apply wf_endSpan.
  - destruct (Map_get sid (activeSpans s)) as [r|] eqn:Hget.
    2: { rewrite addSpanLog_inactive by done. by intros [= <-]. }
    destruct (wf_active_object s sid r Hwf Hget) as (sp & Hr & _).
    rewrite (addSpanLog_active _ _ _ _ _ _ _ Hget Hr). intros [= <-].
    by apply (wf_update s r sp).
  - destruct (Map_get sid (activeSpans s)) as [r|] eqn:Hget.
    2: { rewrite addSpanTags_inactive by done. by intros [= <-]. }
    destruct (wf_active_object s sid r Hwf Hget) as (sp & Hr & _).
    rewrite (addSpanTags_active _ _ _ _ _ Hget Hr). intros [= <-].
    by apply (wf_update s r sp).
Qed.

Lemma reachable_wf cfg (s : TracingService) : reachable cfg s → wf s.
Proof.
  induction 1 as [|s c s' _ IH Hnew Hrun]; [apply wf_init|].
  by eapply wf_run.
Qed.

(** In a well-formed state no call throws. *)
Lemma wf_run_returns cfg (c : call) (s : TracingService) :
  wf s → ∃ s', run cfg c s = JS.Returns s'.
Proof.
  intros Hwf. destruct c as [tid sid draw now name tgs
    | sid now tid parent name tgs | now ship sid st tgs
    | now sid msg data | sid tgs]; simpl; [by eexists..| | |].
  - destruct (Map_get sid (activeSpans s)) as [r|] eqn:Hget.
    2: { rewrite endSpan_inactive by done. by eexists. }
    destruct (wf_active_object s sid r Hwf Hget) as (sp & Hr & _).
    rewrite (endSpan_active _ _ _ _ _ _ _ _ _ Hget Hr). by eexists.
  - destruct (Map_get sid (activeSpans s)) as [r|] eqn:Hget.
    2: { rewrite addSpanLog_inactive by done. by eexists. }
    destruct (wf_active_object s sid r Hwf Hget) as (sp & Hr & _).
    rewrite (addSpanLog_active _ _ _ _ _ _ _ Hget Hr). by eexists.
  - destruct (Map_get sid (activeSpans s)) as [r|] eqn:Hget.
    2: { rewrite addSpanTags_inactive by done. by eexists. }
    destruct (wf_active_object s sid r Hwf Hget) as (sp & Hr & _).
    rewrite (addSpanTags_active _ _ _ _ _ Hget Hr). by eexists.
Qed.

(** A call never touches an object that the completed array holds, and the
    array itself only loses entries from its old end and gains at most the
    span being closed. *)
Lemma run_frozen cfg (c : call) (s s' : TracingService) :
  wf s → run cfg c s = JS.Returns s' →
  (∀ r, r ∈ completedSpans s → objects s' !! r = objects s !! r) ∧
  ∃ n added, completedSpans s' = drop n (completedSpans s) ++ added.
Proof.
  intros Hwf.
  assert (Hkeep : ∃ n added,
            completedSpans s = drop n (completedSpans s) ++ added)
    by (exists 0%nat, []; by rewrite app_nil_r).
  assert (Hupd : ∀ sid r0 (sp' : Span) r,
            Map_get sid (activeSpans s) = Some r0 → r ∈ completedSpans s →
            <[r0 := sp']> (objects s) !! r = objects s !! r).
  { intros sid r0 sp' r Hget Hr. apply list_lookup_insert_ne. intros ->.
    by eapply (wf_unshared s sid r Hwf); [apply Map_get_elem_of|]. }
  assert (Hreg : ∀ sp r, r ∈ completedSpans s →
            objects (register sp s) !! r = objects s !! r).
  { intros sp r Hr. unfold register. simpl.
    by apply lookup_app_l, (wf_completed s Hwf). }
  destruct c as [tid sid draw now name tgs
    | sid now tid parent name tgs | now ship sid st tgs
    | now sid msg data | sid tgs]; simpl.
  - intros [= <-]. destruct (shouldSample cfg draw); [|done].
    split; [by apply Hreg|done].
  - intros [= <-]. destruct (enabled cfg); [|done].
    split; [by apply Hreg|done].
  - destruct (Map_get sid (activeSpans s)) as [r0|] eqn:Hget.
    2: { rewrite endSpan_inactive by done. by intros [= <-]. }
    destruct (wf_active_object s sid r0 Hwf Hget) as (sp & Hr0 & _).
    rewrite (endSpan_active _ _ _ _ _ _ _ _ _ Hget Hr0). intros [= <-]. simpl.
    split; [intros r Hr; by eapply Hupd|].
    destruct (pushed_completed_eq s r0) as [n ->]. by exists n, [r0].
  - destruct (Map_get sid (activeSpans s)) as [r0|] eqn:Hget.
    2: { rewrite addSpanLog_inactive by done. by intros [= <-]. }
    destruct (wf_active_object s sid r0 Hwf Hget) as (sp & Hr0 & _).
    rewrite (addSpanLog_active _ _ _ _ _ _ _ Hget Hr0). intros [= <-]. simpl.
    split; [intros r Hr; by eapply Hupd|done].
  - destruct (Map_get sid (activeSpans s)) as [r0|] eqn:Hget.
    2: { rewrite addSpanTags_inactive by done. by intros [= <-]. }
    destruct (wf_active_object s sid r0 Hwf Hget) as (sp & Hr0 & _).
    rewrite (addSpanTags_active _ _ _ _ _ Hget Hr0). intros [= <-]. simpl.
    split; [intros r Hr; by eapply Hupd|done].
Qed.


Lemma one_active_reachable : reachable tracing_on one_active.
Proof.
  eapply (reachable_step _ init
            (StartTrace "4bf92f3577b34da6a3ce929d0e0e4736" "00f067aa0ba902b7"
               0 1000 "GET /x" None)).
  - apply reachable_init.
  - apply not_elem_of_nil.
  - reflexivity.
Qed.


(** Why the generated id has to be new: an id drawn a second time, after
    its first span was closed, sits in both stores. *)
Example reused_id_sits_in_both_stores :
  ∃ s,
    run_all tracing_on
      [ StartTrace "4bf92f3577b34da6a3ce929d0e0e4736" "00f067aa0ba902b7" 0
          1000 "GET /x" None;
        EndSpan 1042 (Transport.Responded true 201 "Created")
          "00f067aa0ba902b7" ok None;
        StartTrace "0af7651916cd43dd8448eb211c80319c" "00f067aa0ba902b7" 0
          2000 "GET /y" None ] init = JS.Returns s ∧
    active_ids s = ["00f067aa0ba902b7"] ∧
    completed_ids s = ["00f067aa0ba902b7"].
Proof. eexists. by vm_compute. Qed.

Lemma run_all_throws cfg (cs : list call) (e : string) :
  foldl (λ acc c, acc ≫= run cfg c) (JS.Throws e) cs = JS.Throws e.
Proof. by induction cs. Qed.

Lemma run_all_cons cfg (c : call) (cs : list call) (s : TracingService) :
  run_all cfg (c :: cs) s = run cfg c s ≫= run_all cfg cs.
Proof.
  unfold run_all. simpl. destruct (run cfg c s) as [s1|e]; simpl; [done|].
  apply run_all_throws.
Qed.

Lemma run_all_reachable cfg (cs : list call) (s s' : TracingService) :
  reachable cfg s → ids_new cfg cs s →
  run_all cfg cs s = JS.Returns s' → reachable cfg s'.
Proof.
  revert s. induction cs as [|c cs IH]; intros s Hs Hnew.
  - by intros [= <-].
  - rewrite run_all_cons. destruct Hnew as [Hc Hrest].
    destruct (run cfg c s) as [s1|e] eqn:Hrun; [|done]. simpl.
    apply IH; [|done]. by eapply reachable_step.
Qed.

(** C7. [endSpan], [addSpanLog] and [addSpanTags] on a span id that is not
    in the active map return normally and hand back the very same state. *)
Theorem inactive_span_noop cfg now ship sid st tgs msg data tgs'
    (s : TracingService) :
  sid ∉ active_ids s →
  endSpan cfg now ship sid st tgs s = JS.Returns s ∧
  addSpanLog now sid msg data s = JS.Returns s ∧
  addSpanTags sid tgs' s = JS.Returns s.
Proof.
  intros Hget%Map_get_not_elem_of.
  split_and!;
    [by apply endSpan_inactive|by apply addSpanLog_inactive
    |by apply addSpanTags_inactive].
Qed.

Lemma inactive_span_noop_witness :
  ("ffffffffffffffff" ∉ active_ids one_active) ∧
  endSpan tracing_on 1042 (Transport.Responded true 201 "Created")
    "ffffffffffffffff" error None one_active = JS.Returns one_active ∧
  addSpanLog 1042 "ffffffffffffffff" "retrying" None one_active
  = JS.Returns one_active ∧
  addSpanTags "ffffffffffffffff" {[ "attempt" := TagNum 2 ]} one_active
  = JS.Returns one_active.
Proof.
  assert (H : "ffffffffffffffff" ∉ active_ids one_active).
  { intros [[=]|[]%elem_of_nil]%elem_of_cons. }
  split; [exact H|].
  exact (inactive_span_noop tracing_on 1042
           (Transport.Responded true 201 "Created") "ffffffffffffffff" error
           None "retrying" None {[ "attempt" := TagNum 2 ]} one_active H).
Defined.

Lemma endSpan_completed cfg now ship sid st tgs (s s' : TracingService) :
  endSpan cfg now ship sid st tgs s = JS.Returns s' →
  completedSpans s'
  = match Map_get sid (activeSpans s) with
    | Some r => pushed_completed s r
    | None => completedSpans s
    end.
Proof.
  unfold endSpan, read.
  destruct (Map_get sid (activeSpans s)) as [r|]; [|by intros [= <-]].
  destruct (objects s !! r) as [sp|]; [|done]. by intros [= <-].
Qed.

(** *** Reading a trace back *)

Lemma read_all_held (s : TracingService) (rs : list nat) :
  (∀ r, r ∈ rs → (r < length (objects s))%nat) →
  read_all s rs = JS.Returns (held s rs).
Proof.
  induction rs as [|r rs IH]; intros Hrs; [done|].
  destruct (lookup_lt_is_Some_2 (objects s) r) as [sp Hsp].
  { apply Hrs, list_elem_of_here. }
  change (read_all s (r :: rs))
    with (sp ← read s r; sps ← read_all s rs; mret (sp :: sps)).
  change (held s (r :: rs))
    with (match objects s !! r with
          | Some y => y :: held s rs
          | None => held s rs
          end).
  unfold read. rewrite Hsp, IH; [done|].
  intros r' Hr'. by apply Hrs, list_elem_of_further.
Qed.

Lemma elem_of_held (s : TracingService) (rs : list nat) (sp : Span) :
  sp ∈ held s rs ↔ ∃ r, r ∈ rs ∧ objects s !! r = Some sp.
Proof. apply list_elem_of_omap. Qed.

Lemma getTrace_wf (tid : string) (s : TracingService) :
  wf s → getTrace tid s = JS.Returns (JS.sort by_startTime (trace_spans tid s)).
Proof.
  intros Hwf. unfold getTrace.
  rewrite (read_all_held s (map snd (activeSpans s))).
  - by rewrite (read_all_held s (completedSpans s)) by apply (wf_completed s Hwf).
  - intros r ([k r'] & -> & Hin)%list_elem_of_fmap. simpl.
    eapply id_of_lt. by apply (wf_active s Hwf).
Qed.

Lemma elem_of_trace_spans (tid : string) (s : TracingService) (sp : Span) :
  sp ∈ trace_spans tid s ↔
  traceId sp = tid ∧
  ∃ r, (r ∈ map snd (activeSpans s) ∨ r ∈ completedSpans s) ∧
       objects s !! r = Some sp.
Proof.
  unfold trace_spans.
  rewrite elem_of_app, !list_elem_of_In, !filter_In, <- !list_elem_of_In.
  rewrite !elem_of_held. unfold of_trace. rewrite String.eqb_eq.
  split.
  - intros [[(r & Hr & Hsp) Ht]|[(r & Hr & Hsp) Ht]]; eauto 6.
  - intros (Ht & r & [Hr|Hr] & Hsp); [left|right]; eauto.
Qed.

Lemma getTrace_sorted (l : list Span) :
  StronglySorted (λ a b, startTime a ≤ startTime b) (JS.sort by_startTime l).
Proof.
  apply JSFacts.sort_sorted; unfold by_startTime.
  - intros a b c. lia.
  - intros a b. lia.
  - intros a b. lia.
Qed.

(** A span that was just registered is part of its trace. *)
Lemma registered_in_trace (s : TracingService) (sp : Span) :
  sp ∈ trace_spans (traceId sp) (register sp s).
Proof.
  apply elem_of_trace_spans. split; [done|].
  exists (length (objects s)). split.
  - left. apply list_elem_of_fmap. exists (spanId sp, length (objects s)).
    split; [done|]. apply Map_get_elem_of. unfold register. simpl.
    apply Map_set_get.
  - unfold register. simpl. by rewrite lookup_app_r, Nat.sub_diag.
Qed.

End TracingFacts.

(** ** Bounded buffers *)

Module EvictionFacts.
Import Metrics Tracing TracingSpec TracingFacts.

Lemma recordRequest_buffer (m : RequestMetric) (s : MetricsCollector) :
  requestMetrics (recordRequest m s)
  = if maxMetricsRetained <? Z.of_nat (length (requestMetrics s ++ [m]))
    then JS.slice (requestMetrics s ++ [m]) (Z.opp 5000) None
    else requestMetrics s ++ [m].
Proof. reflexivity. Qed.

(** C5. Halving eviction bounds the rolling buffers. After [recordRequest]
    the request buffer holds at most [maxMetricsRetained] entries; the push
    that exceeds the cap leaves exactly the newest [cap / 2] entries, and a
    push within the cap leaves the buffer as pushed. The same holds of the
    completed-span store after [endSpan], which stays within
    [maxCompletedSpans] in every reachable state. *)
Theorem halving_eviction :
  (∀ m s,
     Z.of_nat (length (requestMetrics (recordRequest m s)))
     ≤ maxMetricsRetained) ∧
  (∀ m s,
     maxMetricsRetained < Z.of_nat (length (requestMetrics s ++ [m])) →
     requestMetrics (recordRequest m s)
     = drop (length (requestMetrics s ++ [m])
             - Z.to_nat (maxMetricsRetained / 2)) (requestMetrics s ++ [m]) ∧
     Z.of_nat (length (requestMetrics (recordRequest m s)))
     = maxMetricsRetained / 2) ∧
  (∀ m s,
     Z.of_nat (length (requestMetrics s ++ [m])) ≤ maxMetricsRetained →
     requestMetrics (recordRequest m s) = requestMetrics s ++ [m]) ∧
  (∀ cfg s, reachable cfg s →
     Z.of_nat (length (completedSpans s)) ≤ maxCompletedSpans) ∧
  (∀ cfg now ship sid st tgs s s',
     endSpan cfg now ship sid st tgs s = JS.Returns s' →
     Z.of_nat (length (completedSpans s)) ≤ maxCompletedSpans →
     Z.of_nat (length (completedSpans s')) ≤ maxCompletedSpans) ∧
  (∀ cfg now ship sid st tgs s s' r,
     Map_get sid (activeSpans s) = Some r →
     endSpan cfg now ship sid st tgs s = JS.Returns s' →
     (maxCompletedSpans < Z.of_nat (length (completedSpans s ++ [r])) →
      completedSpans s'
      = drop (length (completedSpans s ++ [r])
              - Z.to_nat (maxCompletedSpans / 2)) (completedSpans s ++ [r]) ∧
      Z.of_nat (length (completedSpans s')) = maxCompletedSpans / 2) ∧
     (Z.of_nat (length (completedSpans s ++ [r])) ≤ maxCompletedSpans →
      completedSpans s' = completedSpans s ++ [r])).
Proof.
  split_and!.
  - intros m s. rewrite recordRequest_buffer.
    by apply (JSFacts.halve_length maxMetricsRetained 5000).
  - intros m s Hover. rewrite recordRequest_buffer.
    by apply (JSFacts.halve_over maxMetricsRetained 5000).
  - intros m s Hin. rewrite recordRequest_buffer.
    by apply (JSFacts.halve_within maxMetricsRetained 5000).
  - intros cfg s Hs. apply wf_cap. by eapply reachable_wf.
  - intros cfg now ship sid st tgs s s' Hend Hcap.
    rewrite (endSpan_completed _ _ _ _ _ _ _ _ Hend).
    destruct (Map_get sid (activeSpans s)); [|done].
    apply pushed_completed_length.
  - intros cfg now ship sid st tgs s s' r Hget Hend.
    rewrite (endSpan_completed _ _ _ _ _ _ _ _ Hend), Hget.
    split; intros H.
    + by apply (JSFacts.halve_over maxCompletedSpans 2500).
    + by apply (JSFacts.halve_within maxCompletedSpans 2500).
Qed.

(** The push onto a full request buffer, run. *)
Example recordRequest_on_full_buffer :
  let m := mkRequestMetric "GET" "/api/x" 200 12 0 in
  let full := mkMetricsCollector (repeat m (Z.to_nat 10000)) []
                (mkDbMetrics 0 0 0) in
  length (requestMetrics full) = Z.to_nat 10000 ∧
  length (requestMetrics (recordRequest m full)) = Z.to_nat 5000.
Proof. vm_compute. done. Qed.

End EvictionFacts.

(** ** Sampling *)

Module SamplingFacts.
Import Tracing TracingSpec MapFacts TracingFacts.

Lemma shouldSample_rate_zero cfg (draw : Q) :
  enabled cfg = true → (sampleRate cfg <= 0)%Q → (0 <= draw)%Q →
  shouldSample cfg draw = false.
Proof.
  intros He Hrate Hdraw. unfold shouldSample. rewrite He. simpl.
  destruct (Qle_bool 1 (sampleRate cfg)) eqn:E1.
  - apply Qle_bool_iff in E1. exfalso.
    apply (Qle_not_lt _ _ (Qle_trans _ _ _ E1 Hrate)). by vm_compute.
  - assert (Qle_bool (sampleRate cfg) draw = true) as ->; [|done].
    apply Qle_bool_iff. by eapply Qle_trans.
Qed.

Lemma shouldSample_rate_one cfg (draw : Q) :
  enabled cfg = true → (1 <= sampleRate cfg)%Q → shouldSample cfg draw = true.
Proof.
  intros He Hrate. unfold shouldSample. rewrite He. simpl.
  by apply Qle_bool_iff in Hrate as ->.
Qed.

Lemma register_active_id (sp : Span) (s : TracingService) :
  spanId sp ∈ active_ids (register sp s).
Proof.
  apply list_elem_of_fmap. exists (spanId sp, length (objects s)).
  split; [done|]. apply Map_get_elem_of. unfold register. simpl.
  apply Map_set_get.
Qed.

(** A trace whose root was not sampled: the sample rate is 0, the root call
    records nothing, and the child span that continues the trace is recorded
    all the same and comes back from [getTrace]. *)
Lemma child_recorded_under_unsampled_root :
  let cfg := mkMonitoringConfig true 0 "payd-backend" false in
  let tid := "4bf92f3577b34da6a3ce929d0e0e4736" in
  let root := startTrace cfg tid "00f067aa0ba902b7" (1 # 2) 1000 "GET /x"
                None init in
  let child := startSpan cfg "b7ad6b7169203331" 1005 tid "00f067aa0ba902b7"
                 "db.query" None root.2 in
  shouldSample cfg (1 # 2) = false ∧
  root.2 = init ∧
  active_ids child.2 = ["b7ad6b7169203331"] ∧
  getTrace tid child.2
  = JS.Returns [new_span cfg "b7ad6b7169203331" tid (Some "00f067aa0ba902b7")
                  "db.query" 1005 None].
Proof. vm_compute. done. Qed.

(** C1, as the code has it. With tracing enabled, the sampling draw decides
    about the root span only: an unsampled [startTrace] leaves the state
    (and so [getTrace]) as it was, a rate of 0 never samples and a rate of
    1 or more always does; a [startSpan] that continues the trace records
    its span in the active map whatever the root's draw was, and [getTrace]
    returns it. *)
Theorem sampling_decides_root_only cfg tid sid draw now name tgs
    sid' now' name' tgs' (s : TracingService) :
  enabled cfg = true →
  reachable cfg s →
  sid ∉ completed_ids s → sid' ∉ completed_ids s →
  let root := startTrace cfg tid sid draw now name tgs s in
  let child := startSpan cfg sid' now' tid sid name' tgs' root.2 in
  let child_span := new_span cfg sid' tid (Some sid) name' now' tgs' in
  root.1 = mkTraceContext tid sid None ∧
  (shouldSample cfg draw = false → root.2 = s) ∧
  (shouldSample cfg draw = true →
   root.2 = register (new_span cfg sid tid None name now tgs) s ∧
   sid ∈ active_ids root.2) ∧
  ((sampleRate cfg <= 0)%Q → (0 <= draw)%Q → shouldSample cfg draw = false) ∧
  ((1 <= sampleRate cfg)%Q → shouldSample cfg draw = true) ∧
  child.1 = mkTraceContext tid sid' (Some sid) ∧
  child.2 = register child_span root.2 ∧
  sid' ∈ active_ids child.2 ∧
  ∃ spans, getTrace tid child.2 = JS.Returns spans ∧ child_span ∈ spans.
Proof.
  intros He Hs Hsid Hsid' root child child_span.
  assert (Hroot : wf root.2 ∧ sid' ∉ completed_ids root.2).
  { unfold root, startTrace. simpl.
    pose proof (reachable_wf _ _ Hs) as Hwf.
    destruct (shouldSample cfg draw); [|done].
    split; [by apply wf_register|].
    rewrite (completed_ids_ext s); [done..|].
    intros r Hr. unfold id_of, register. simpl.
    by rewrite lookup_app_l by by apply (wf_completed s Hwf). }
  destruct Hroot as [Hwf1 Hnew1].
  assert (Hchild : child.2 = register child_span root.2).
  { unfold child, startSpan. simpl. by rewrite He. }
  split_and!; try done.
  - unfold root, startTrace. simpl. by intros ->.
  - unfold root, startTrace. simpl. intros ->.
    split; [done|]. apply (register_active_id (new_span _ _ _ _ _ _ _)).
  - by apply shouldSample_rate_zero.
  - by apply shouldSample_rate_one.
  - rewrite Hchild. apply (register_active_id child_span).
  - eexists. split.
    + apply getTrace_wf. rewrite Hchild. by apply wf_register.
    + rewrite JSFacts.sort_perm, Hchild.
      apply (registered_in_trace root.2 child_span).
Qed.

Lemma sampling_decides_root_only_witness :
  let cfg := mkMonitoringConfig true 0 "payd-backend" false in
  enabled cfg = true ∧ reachable cfg init ∧
  ("00f067aa0ba902b7" ∉ completed_ids init) ∧
  ("b7ad6b7169203331" ∉ completed_ids init) ∧
  shouldSample cfg 0 = false ∧
  "b7ad6b7169203331"
  ∈ active_ids
      (startSpan cfg "b7ad6b7169203331" 1005 "4bf92f3577b34da6a3ce929d0e0e4736"
         "00f067aa0ba902b7" "db.query" None
         (startTrace cfg "4bf92f3577b34da6a3ce929d0e0e4736" "00f067aa0ba902b7"
            0 1000 "GET /x" None init).2).2.
Proof.
  set (cfg := mkMonitoringConfig true 0 "payd-backend" false).
  assert (H1 : enabled cfg = true) by reflexivity.
  assert (H2 : reachable cfg init) by apply reachable_init.
  assert (H3 : "00f067aa0ba902b7" ∉ completed_ids init)
    by apply not_elem_of_nil.
  assert (H4 : "b7ad6b7169203331" ∉ completed_ids init)
    by apply not_elem_of_nil.
  destruct (sampling_decides_root_only cfg "4bf92f3577b34da6a3ce929d0e0e4736"
              "00f067aa0ba902b7" 0 1000 "GET /x" None "b7ad6b7169203331" 1005
              "db.query" None init H1 H2 H3 H4)
    as (_ & _ & _ & Hzero & _ & _ & _ & Hin & _).
  split_and!; [done..| |exact Hin].
  apply Hzero; by vm_compute.
Defined.

End SamplingFacts.

(** ** The propagation header *)

Module TraceparentFacts.
Import Tracing TraceparentSpec.

Lemma split_cons (sep : ascii) (s : string) :
  ∃ f fs, JS.split sep s = f :: fs.
Proof.
  destruct s as [|c s]; simpl; [by eexists _, _|].
  destruct (Ascii.eqb c sep); [by eexists _, _|].
  destruct (JS.split sep s); by eexists _, _.
Qed.

Lemma split_app (sep : ascii) (a rest : string) :
  has_sep sep a = false →
  JS.split sep (a +:+ String sep rest) = a :: JS.split sep rest.
Proof.
  induction a as [|c a IH]; simpl.
  - intros _. by rewrite Ascii.eqb_refl.
  - intros [Hc Ha]%orb_false_iff. rewrite Hc, IH by done. done.
Qed.

Lemma split_no_sep (sep : ascii) (s : string) :
  has_sep sep s = false → JS.split sep s = [s].
Proof.
  induction s as [|c s IH]; simpl; [done|].
  intros [Hc Hs]%orb_false_iff. by rewrite Hc, IH.
Qed.

(** The first field of a split has no separator in it, and either it is
    the whole string or the string goes on with a separator. *)
Lemma split_inv (sep : ascii) (s f : string) (fs : list string) :
  JS.split sep s = f :: fs →
  has_sep sep f = false ∧
  match fs with
  | [] => s = f
  | _ :: _ => ∃ rest, s = f +:+ String sep rest ∧ JS.split sep rest = fs
  end.
Proof.
  revert f fs. induction s as [|c s IH]; intros f fs; simpl.
  - by intros [= <- <-].
  - destruct (Ascii.eqb_spec c sep) as [->|Hne].
    + intros [= <- <-]. split; [done|].
      destruct (split_cons sep s) as (g & gs & Hg). rewrite Hg.
      exists s. by rewrite Hg.
    + destruct (JS.split sep s) as [|f' fs'] eqn:Hs.
      { destruct (split_cons sep s) as (g & gs & Hg). congruence. }
      intros [= <- <-]. destruct (IH f' fs' eq_refl) as [Hf' Hrest].
      split.
      * simpl. rewrite Hf'. by destruct (Ascii.eqb_spec c sep).
      * destruct fs' as [|g gs]; [by rewrite Hrest|].
        destruct Hrest as (rest & -> & Hr). by exists rest.
Qed.

Lemma dash_append (x : string) : "-" +:+ x = String "-" x.
Proof. reflexivity. Qed.

Lemma split_four (header version tid parent flags : string) :
  JS.split "-" header = [version; tid; parent; flags] ↔
  header = version +:+ "-" +:+ tid +:+ "-" +:+ parent +:+ "-" +:+ flags ∧
  has_sep "-" version = false ∧ has_sep "-" tid = false ∧
  has_sep "-" parent = false ∧ has_sep "-" flags = false.
Proof.
  split.
  - intros H.
    apply split_inv in H as (Hv & r1 & -> & H).
    apply split_inv in H as (Ht & r2 & -> & H).
    apply split_inv in H as (Hp & r3 & -> & H).
    apply split_inv in H as (Hf & ->). done.
  - intros (-> & Hv & Ht & Hp & Hf).
    rewrite !dash_append, !split_app by done. by rewrite split_no_sep.
Qed.

Lemma parseTraceparent_Some (sid header : string) (ctx : TraceContext) :
  parseTraceparent sid header = Some ctx ↔
  ∃ tid parent,
    length_rule header tid parent ∧ ctx = mkTraceContext tid sid (Some parent).
Proof.
  unfold parseTraceparent, length_rule. split.
  - destruct (JS.split "-" header) as [|v [|t [|p [|f [|x xs]]]]] eqn:Hs;
      simpl; try done.
    destruct (String.eqb_spec t EmptyString); simpl; [done|].
    destruct (Nat.eqb_spec (String.length t) 32); simpl; [|done].
    destruct (String.eqb_spec p EmptyString); simpl; [done|].
    destruct (Nat.eqb_spec (String.length p) 16); simpl; [|done].
    intros [= <-]. apply split_four in Hs as (-> & Hv & Ht & Hp & Hf).
    exists t, p. split; [|done]. by exists v, f.
  - intros (t & p & (v & f & Hh & Hv & Ht & Hp & Hf & Hlt & Hlp) & ->).
    assert (JS.split "-" header = [v; t; p; f]) as ->
      by by apply split_four.
    simpl. rewrite Hlt, Hlp. simpl.
    destruct t; [done|]. destruct p; [done|]. done.
Qed.

(** C2, as the code has it. [parseTraceparent] returns a context exactly
    for the headers made of four dash-separated fields whose second field
    has 32 characters and whose third has 16, whatever those characters
    are, and [null] for every other string; the context carries the second
    field as trace id, the third as parent span id and the generated span
    id. Headers whose two ids are hexadecimal are among the accepted ones. *)
Theorem parseTraceparent_length_rule (sid header : string) :
  (∀ ctx,
     parseTraceparent sid header = Some ctx ↔
     ∃ tid parent,
       length_rule header tid parent ∧
       ctx = mkTraceContext tid sid (Some parent)) ∧
  (parseTraceparent sid header = None ↔
   ¬ ∃ tid parent, length_rule header tid parent) ∧
  (∀ tid parent,
     hex_rule header tid parent →
     parseTraceparent sid header = Some (mkTraceContext tid sid (Some parent))).
Proof.
  split_and!.
  - intros ctx. apply parseTraceparent_Some.
  - split.
    + intros Hnone (tid & parent & Hrule).
      assert (parseTraceparent sid header
              = Some (mkTraceContext tid sid (Some parent))) as Hsome
        by (apply parseTraceparent_Some; eauto).
      congruence.
    + intros Hno. destruct (parseTraceparent sid header) as [ctx|] eqn:E;
        [|done].
      apply parseTraceparent_Some in E as (tid & parent & Hrule & _).
      exfalso. apply Hno. eauto.
  - intros tid parent (Hrule & _). apply parseTraceparent_Some. eauto.
Qed.

(** A header whose ids are not hexadecimal, and which is accepted. *)
Lemma non_hex_header_accepted :
  let header := "00-zzzzzzzzzzzzzzzzzzzzzzzzzzzzzzzz-zzzzzzzzzzzzzzzz-01" in
  parseTraceparent "b7ad6b7169203331" header
  = Some (mkTraceContext "zzzzzzzzzzzzzzzzzzzzzzzzzzzzzzzz" "b7ad6b7169203331"
            (Some "zzzzzzzzzzzzzzzz")) ∧
  ¬ ∃ tid parent, hex_rule header tid parent.
Proof.
  split; [by vm_compute|].
  intros (tid & parent & Hrule & Hhex & _).
  assert (parseTraceparent "b7ad6b7169203331"
            "00-zzzzzzzzzzzzzzzzzzzzzzzzzzzzzzzz-zzzzzzzzzzzzzzzz-01"
          = Some (mkTraceContext tid "b7ad6b7169203331" (Some parent))) as H
    by (apply parseTraceparent_Some; eauto).
  vm_compute in H. injection H as <- <-. by vm_compute in Hhex.
Qed.

Example parseTraceparent_accepts :
  parseTraceparent "b7ad6b7169203331"
    "00-4bf92f3577b34da6a3ce929d0e0e4736-00f067aa0ba902b7-01"
  = Some (mkTraceContext "4bf92f3577b34da6a3ce929d0e0e4736" "b7ad6b7169203331"
            (Some "00f067aa0ba902b7")).
Proof. by vm_compute. Qed.

Example parseTraceparent_rejects :
  parseTraceparent "b7ad6b7169203331"
    "00-4bf92f3577b34da6a3ce929d0e0e4736-00f067aa0ba902b7" = None ∧
  parseTraceparent "b7ad6b7169203331"
    "00-4bf92f3577b34da6a3ce929d0e0e4736-00f067aa0ba902b7-01-extra" = None ∧
  parseTraceparent "b7ad6b7169203331" "00-4bf92f35-00f067aa0ba902b7-01" = None ∧
  parseTraceparent "b7ad6b7169203331" EmptyString = None.
Proof. by vm_compute. Qed.

Example toTraceparent_parses_back :
  parseTraceparent "b7ad6b7169203331"
    (toTraceparent (mkTraceContext "4bf92f3577b34da6a3ce929d0e0e4736"
                      "00f067aa0ba902b7" None))
  = Some (mkTraceContext "4bf92f3577b34da6a3ce929d0e0e4736" "b7ad6b7169203331"
            (Some "00f067aa0ba902b7")).
Proof. by vm_compute. Qed.

End TraceparentFacts.

(** ** Alerting service: the cooldown *)

Module AlertingFacts.
Import Alerting AlertingSpec.

(** The call is suppressed when the key has a non-zero last emission time
    less than the cooldown ago. *)
Lemma createAlert_suppressed cfg now stamp rnd params (s : AlertingService) t :
  lastAlertTime s !! alertKey params = Some t → t ≠ 0 →
  now - t < ALERT_COOLDOWN_MS cfg →
  createAlert cfg now stamp rnd params s = (None, s).
Proof.
  intros Ht Hnz Hcool. unfold createAlert. rewrite Ht. simpl.
  destruct (Z.eqb_spec t 0); [done|]. simpl.
  by destruct (Z.ltb_spec (now - t) (ALERT_COOLDOWN_MS cfg)); [|lia].
Qed.

Lemma createAlert_emitted cfg now stamp rnd params (s : AlertingService) :
  (∀ t, lastAlertTime s !! alertKey params = Some t →
        t = 0 ∨ ALERT_COOLDOWN_MS cfg ≤ now - t) →
  createAlert cfg now stamp rnd params s
  = (Some (new_alert now stamp rnd params),
     mkAlertingService (pushed_alerts s (new_alert now stamp rnd params))
       (<[alertKey params := now]> (lastAlertTime s))).
Proof.
  intros Hfree. unfold createAlert.
  destruct (lastAlertTime s !! alertKey params) as [t|] eqn:Ht; simpl; [|done].
  destruct (Hfree t eq_refl) as [->|Hold]; [done|].
  destruct (Z.eqb_spec t 0); [done|]. simpl.
  by destruct (Z.ltb_spec (now - t) (ALERT_COOLDOWN_MS cfg)); [lia|].
Qed.

(** A call either leaves the state alone or stores its alert and stamps
    its own key with its own time. *)
Lemma createAlert_cases cfg now stamp rnd params (s : AlertingService) :
  createAlert cfg now stamp rnd params s = (None, s) ∨
  createAlert cfg now stamp rnd params s
  = (Some (new_alert now stamp rnd params),
     mkAlertingService (pushed_alerts s (new_alert now stamp rnd params))
       (<[alertKey params := now]> (lastAlertTime s))).
Proof.
  unfold createAlert.
  destruct (JS.truthy_num _ && _); [by left|by right].
Qed.

Lemma call_keeps_stamp cfg (c : Call) (s : AlertingService) k t1 :
  t1 ≤ c_now c → stamped_since k t1 s → stamped_since k t1 (call cfg c s).2.
Proof.
  intros Hc (t & Ht & Hle). unfold call.
  destruct (createAlert_cases cfg (c_now c) (c_stamp c) (c_rnd c)
              (c_params c) s) as [-> | ->]; [by exists t|].
  unfold stamped_since. cbn [snd lastAlertTime].
  destruct (decide (alertKey (c_params c) = k)) as [<-|Hne].
  - exists (c_now c). by rewrite lookup_insert_eq.
  - exists t. by rewrite lookup_insert_ne.
Qed.

Lemma calls_keep_stamp cfg (cs : list Call) (s : AlertingService) k t1 :
  Forall (λ c, t1 ≤ c_now c) cs →
  stamped_since k t1 s → stamped_since k t1 (calls cfg cs s).
Proof.
  intros Hcs. revert s. induction Hcs as [|c cs Hc _ IH]; intros s Hs; [done|].
  simpl. apply IH. by apply call_keeps_stamp.
Qed.

Lemma alertKey_same (p q : AlertParams) :
  p_type p = p_type q → p_severity p = p_severity q → alertKey p = alertKey q.
Proof. unfold alertKey. by intros -> ->. Qed.

(** Distinct (type, severity) pairs have distinct keys. *)
Lemma alertKey_inj (p q : AlertParams) :
  alertKey p = alertKey q → p_type p = p_type q ∧ p_severity p = p_severity q.
Proof.
  unfold alertKey.
  destruct (p_type p), (p_type q), (p_severity p), (p_severity q);
    by vm_compute.
Qed.

Lemma pushed_alerts_nil (s : AlertingService) (a : Alert) :
  alerts s = [] → pushed_alerts s a = [a].
Proof. intros H. unfold pushed_alerts. by rewrite H. Qed.

Lemma pushed_alerts_one (s : AlertingService) (a b : Alert) :
  alerts s = [a] → pushed_alerts s b = [a; b].
Proof. intros H. unfold pushed_alerts. by rewrite H. Qed.



(** An emission stamped with time 0 reads as "never emitted". *)
Example zero_stamp_is_no_cooldown :
  (calls cooldown_config [error_burst 0 "k3x9ab"; error_burst 1 "q81zzp"] init)
  = mkAlertingService
      [new_alert 0 0 "k3x9ab" (c_params (error_burst 0 "k3x9ab"));
       new_alert 1 1 "q81zzp" (c_params (error_burst 1 "q81zzp"))]
      {[ "error_rate:critical" := 1 ]}.
Proof. by vm_compute. Qed.

(** *** Reading alerts back *)

Lemma elem_of_matching (filter : option AlertFilter) (l : list Alert) a :
  a ∈ matching filter l ↔
  a ∈ l ∧
  (∀ v, filter ≫= f_severity = Some v → severity a = v) ∧
  (∀ t, filter ≫= f_type = Some t → type a = t) ∧
  (∀ b, filter ≫= f_acknowledged = Some b → acknowledged a = b).
Proof.
  unfold matching.
  destruct (filter ≫= f_severity) as [v|], (filter ≫= f_type) as [t|],
    (filter ≫= f_acknowledged) as [b|];
    rewrite ?list_elem_of_In, ?filter_In, ?bool_decide_eq_true,
      <- ?list_elem_of_In;
    (split;
     [ intros H; decompose [and] H; split_and!; try done; by intros ? [= <-]
     | intros (? & H1 & H2 & H3); split_and?; eauto ]).
Qed.

(** C10. Without a positive limit [getAlerts] falls back to 50: when the
    filter is absent, or its limit is absent or 0, the result is the first
    50 of the matching alerts sorted newest first, so it never has more
    than 50 entries and every alert left out is no newer than any alert
    returned. *)
Theorem getAlerts_default_limit (filter : option AlertFilter)
    (s : AlertingService) :
  match filter with
  | None => True
  | Some f => f_limit f = None ∨ f_limit f = Some 0
  end →
  let sorted := JS.sort newest_first (matching filter (alerts s)) in
  getAlerts filter s = take 50 sorted ∧
  (length (getAlerts filter s) ≤ 50)%nat ∧
  length (getAlerts filter s)
  = Nat.min 50 (length (matching filter (alerts s))) ∧
  sorted ≡ₚ matching filter (alerts s) ∧
  StronglySorted (λ a b, timestamp b ≤ timestamp a) sorted ∧
  ∀ a b, a ∈ getAlerts filter s → b ∈ drop 50 sorted →
         timestamp b ≤ timestamp a.
Proof.
  intros Hlimit sorted.
  assert (Hs : StronglySorted (λ a b, timestamp b ≤ timestamp a) sorted).
  { apply JSFacts.sort_sorted; unfold newest_first.
    - intros a b c. lia.
    - intros a b. lia.
    - intros a b. lia. }
  assert (Hget : getAlerts filter s = take 50 sorted).
  { unfold getAlerts. fold newest_first. fold sorted.
    assert (JS.or_num (filter ≫= f_limit) 50 = 50) as ->.
    { destruct filter as [f|]; [|done]. simpl.
      by destruct Hlimit as [-> | ->]. }
    by rewrite JSFacts.slice_prefix. }
  assert (Hperm : sorted ≡ₚ matching filter (alerts s))
    by apply JSFacts.sort_perm.
  rewrite Hget. split_and!; [done| | |done|done|].
  - rewrite length_take. lia.
  - by rewrite length_take, Hperm.
  - intros a b Ha Hb.
    rewrite <- (take_drop 50 sorted) in Hs.
    by apply (StronglySorted_app_1_elem_of _ _ _ _ _ Hs).
Qed.

Lemma getAlerts_default_limit_witness :
  length (alerts many_alerts) = 51%nat ∧
  length (getAlerts None many_alerts) = 50%nat ∧
  length (getAlerts (Some (mkAlertFilter None None None (Some 0))) many_alerts)
  = 50%nat ∧
  (timestamp <$> head (getAlerts None many_alerts)) = Some 1700000050000 ∧
  (timestamp <$> last (getAlerts None many_alerts)) = Some 1700000001000.
Proof.
  destruct (getAlerts_default_limit None many_alerts I)
    as (Hget & _ & Hlen & _).
  destruct (getAlerts_default_limit
              (Some (mkAlertFilter None None None (Some 0))) many_alerts
              (or_intror eq_refl))
    as (_ & _ & Hlen0 & _).
  split; [reflexivity|]. split; [by rewrite Hlen|]. split; [by rewrite Hlen0|].
  rewrite Hget. by vm_compute.
Defined.

End AlertingFacts.

(** ** Export failures *)

Module ExportFacts.
Import Transport ExportSpec.

Lemma flush_send_cases (r : FetchResult) (docs : list Doc)
    (t : ElasticsearchTransport) :
  flush_send r docs t = JS.Returns t ∨
  ∃ msg, flush_send r docs t = JS.Returns (log_error msg t).
Proof.
  unfold flush_send.
  destruct (bulk_lines (indexPrefix t) docs) as [ls|e]; simpl; [|eauto].
  destruct r as [[|] st txt|msg]; simpl; eauto.
Qed.

Lemma flush_send_failed (r : FetchResult) (docs : list Doc)
    (t : ElasticsearchTransport) :
  failed r → ∃ msg, flush_send r docs t = JS.Returns (log_error msg t).
Proof.
  unfold flush_send.
  destruct (bulk_lines (indexPrefix t) docs) as [ls|e]; simpl; [|eauto].
  destruct r as [[|] st txt|msg]; simpl; eauto. done.
Qed.

Lemma flush_returns (r : FetchResult) (t : ElasticsearchTransport) :
  ∃ t', flush r t = JS.Returns t' ∧ buffer t' = [] ∧
        indexPrefix t' = indexPrefix t.
Proof.
  destruct (buffer t) as [|d ds] eqn:Hb.
  - exists t. unfold flush. by rewrite Hb.
  - assert (flush r t = flush_send r (buffer t) (set_buffer [] t)) as ->
      by (unfold flush, flush_take; by rewrite Hb).
    destruct (flush_send_cases r (buffer t) (set_buffer [] t))
      as [-> | [msg ->]]; by eexists.
Qed.

(** C8. An export failure stays inside the exporter. Whatever way the bulk
    request settles, [flush] returns normally with the flushed documents
    out of the buffer; settling the request never writes the buffer, so a
    dropped batch is not put back; a failed request leaves a diagnostic
    line and nothing else; the next [log] call buffers its document as
    usual. The promise of [shipSpan] always fulfils, and [endSpan] does the
    same whatever becomes of the span export. *)
Theorem export_failure_is_contained :
  (∀ r t, ∃ t', flush r t = JS.Returns t' ∧ buffer t' = [] ∧
                indexPrefix t' = indexPrefix t) ∧
  (∀ r docs t, ∃ t', flush_send r docs t = JS.Returns t' ∧
                     buffer t' = buffer t) ∧
  (∀ r docs t, failed r →
     ∃ msg, flush_send r docs t = JS.Returns (log_error msg t)) ∧
  (∀ r r' doc t t', flush r t = JS.Returns t' →
     log r' doc t' = JS.Returns (set_buffer [doc] t')) ∧
  (∀ cfg r sp, Tracing.shipSpan cfg r sp = JS.Returns tt) ∧
  (∀ cfg now r r' sid st tgs s,
     Tracing.endSpan cfg now r sid st tgs s
     = Tracing.endSpan cfg now r' sid st tgs s).
Proof.
  split_and!.
  - apply flush_returns.
  - intros r docs t.
    destruct (flush_send_cases r docs t) as [-> | [msg ->]]; by eexists.
  - intros r docs t. apply flush_send_failed.
  - intros r r' doc t t' Hflush.
    destruct (flush_returns r t) as (t'' & Heq & Hb & _).
    rewrite Hflush in Heq. injection Heq as <-.
    unfold log. rewrite Hb. done.
  - intros cfg r sp. unfold Tracing.shipSpan.
    destruct (Tracing.toISOString _); [|done]. by destruct r.
  - reflexivity.
Qed.

(** A rejected bulk request, then business as usual. *)
Example flush_rejected :
  let doc := mkDoc (Some "payd-logs-2026-01-15")
               (JS.Returns "{...}") in
  let t := mkTransport [doc; doc] "payd" [] in
  flush (Rejected "connect ECONNREFUSED 127.0.0.1:9200") t
  = JS.Returns
      (mkTransport [] "payd"
         ["Failed to ship logs to Elasticsearch: connect ECONNREFUSED 127.0.0.1:9200"]) ∧
  (t' ← flush (Rejected "connect ECONNREFUSED 127.0.0.1:9200") t;
   log (Responded true 200 "OK") doc t')
  = JS.Returns
      (mkTransport [doc] "payd"
         ["Failed to ship logs to Elasticsearch: connect ECONNREFUSED 127.0.0.1:9200"]).
Proof. by vm_compute. Qed.

Example flush_not_ok :
  let doc := mkDoc None (JS.Returns "{...}") in
  flush (Responded false 503 "Service Unavailable")
    (mkTransport [doc] "payd" [])
  = JS.Returns
      (mkTransport [] "payd"
         ["Elasticsearch bulk insert failed: 503 Service Unavailable"]).
Proof. by vm_compute. Qed.

End ExportFacts.

(** ** The trace-detail route *)

Module RoutesFacts.
Import Tracing TracingSpec TracingFacts Routes RoutesSpec.

(** What the handler answers in a well-formed state: 404 when the service
    holds no span of the trace; otherwise every span of the trace that the
    service holds, by ascending start time, their number, and as duration
    the end time of the span that started last (the current time if that
    one is open or ended at 0) minus the earliest start time. *)
Lemma getTraceById_answer (now : Z) (tid : string) (s : TracingService) :
  wf s →
  (trace_spans tid s = [] → getTraceById now tid s = NotFound) ∧
  (trace_spans tid s ≠ [] →
   ∃ spans first final,
     getTraceById now tid s
     = Found tid spans (Z.of_nat (length spans))
         (JS.or_num (endTime final) now - startTime first) ∧
     spans ≡ₚ trace_spans tid s ∧
     StronglySorted (λ a b, startTime a ≤ startTime b) spans ∧
     head spans = Some first ∧ last spans = Some final).
Proof.
  intros Hwf. unfold getTraceById. rewrite (getTrace_wf tid s Hwf).
  pose proof (JSFacts.sort_perm by_startTime (trace_spans tid s)) as Hperm.
  split.
  - by intros ->.
  - intros Hne.
    destruct (JS.sort by_startTime (trace_spans tid s)) as [|first rest] eqn:E.
    { apply Permutation_nil in Hperm. by symmetry in Hperm. }
    destruct (last (first :: rest)) as [final|] eqn:Hlast.
    2: { by apply last_None in Hlast. }
    exists (first :: rest), first, final.
    split_and!; [done|done| |done|done].
    rewrite <- E. apply getTrace_sorted.
Qed.

Lemma nested_trace_run : run_all payroll_config nested_calls init = JS.Returns nested_trace.
Proof. by vm_compute. Qed.

Lemma nested_trace_reachable : reachable payroll_config nested_trace.
Proof.
  apply (run_all_reachable payroll_config nested_calls init);
    [apply reachable_init| |apply nested_trace_run].
  simpl. split_and!; try done; apply not_elem_of_nil.
Qed.

(** C9, where the code departs from it. On the nested trace the handler
    answers with both spans in start order and a span count of 2, but with
    a duration of 50 (the end of the child, which started last, minus the
    start of the root), while the root span ran for 100 and the documented
    duration, latest end minus root start, is 100. *)
Theorem trace_duration_stops_at_last_started_span :
  reachable payroll_config nested_trace ∧
  getTraceById 2000 "4bf92f3577b34da6a3ce929d0e0e4736" nested_trace
  = Found "4bf92f3577b34da6a3ce929d0e0e4736" [root_span; child_span] 2 50 ∧
  documented_duration 2000 [root_span; child_span] = Some 100 ∧
  duration root_span = Some 100.
Proof. split; [apply nested_trace_reachable|]. by vm_compute. Qed.

(** The handler also stops the clock early while the root is still open:
    the child has ended, the root has not, and the answer is the child's
    end rather than the current time. *)
Example open_root_closed_child :
  ∃ s spans,
    run_all payroll_config (take 3 nested_calls) init = JS.Returns s ∧
    getTraceById 2000 "4bf92f3577b34da6a3ce929d0e0e4736" s
    = Found "4bf92f3577b34da6a3ce929d0e0e4736" spans 2 50 ∧
    documented_duration 2000 spans = Some 1000.
Proof. eexists _, _. by vm_compute. Qed.

(** Where the span that started last is also the one that ends last, the
    answer is the documented one. *)
Example single_span_trace :
  ∃ s spans,
    run_all payroll_config
      [ StartTrace "4bf92f3577b34da6a3ce929d0e0e4736" "00f067aa0ba902b7" 0
          1000 "GET /x" None;
        EndSpan 1042 (Transport.Responded true 201 "Created")
          "00f067aa0ba902b7" ok None ] init = JS.Returns s ∧
    getTraceById 2000 "4bf92f3577b34da6a3ce929d0e0e4736" s
    = Found "4bf92f3577b34da6a3ce929d0e0e4736" spans 1 42 ∧
    documented_duration 2000 spans = Some 42 ∧
    getTraceById 2000 "0af7651916cd43dd8448eb211c80319c" s = NotFound.
Proof. eexists _, _. by vm_compute. Qed.

End RoutesFacts.

(** ** Generated identifiers and the header they travel in *)

Module IdsFacts.
Import Tracing TraceparentSpec TraceparentFacts Ids.

Lemma byte_digits (b : Byte.byte) :
  is_hex (hex_digit (Byte.to_N b / 16)) = true ∧
  is_hex (hex_digit (Byte.to_N b mod 16)) = true ∧
  Ascii.eqb (hex_digit (Byte.to_N b / 16)) "-" = false ∧
  Ascii.eqb (hex_digit (Byte.to_N b mod 16)) "-" = false.
Proof. destruct b; by vm_compute. Qed.

Lemma toString_hex_length (bytes : list Byte.byte) :
  String.length (toString_hex bytes) = (2 * length bytes)%nat.
Proof. induction bytes as [|b bytes IH]; simpl; [done|]. rewrite IH. lia. Qed.

Lemma toString_hex_no_dash (bytes : list Byte.byte) :
  has_sep "-" (toString_hex bytes) = false.
Proof.
  induction bytes as [|b bytes IH]; simpl; [done|].
  destruct (byte_digits b) as (_ & _ & -> & ->). by rewrite IH.
Qed.

Lemma toString_hex_all_hex (bytes : list Byte.byte) :
  all_hex (toString_hex bytes) = true.
Proof.
  induction bytes as [|b bytes IH]; simpl; [done|].
  destruct (byte_digits b) as (-> & -> & _ & _). by rewrite IH.
Qed.

(** A context whose ids have the right lengths and no dash survives the
    header. *)
Lemma toTraceparent_parses (sid : string) (ctx : TraceContext) :
  has_sep "-" (ctx_traceId ctx) = false →
  has_sep "-" (ctx_spanId ctx) = false →
  String.length (ctx_traceId ctx) = 32%nat →
  String.length (ctx_spanId ctx) = 16%nat →
  length_rule (toTraceparent ctx) (ctx_traceId ctx) (ctx_spanId ctx) ∧
  parseTraceparent sid (toTraceparent ctx)
  = Some (mkTraceContext (ctx_traceId ctx) sid (Some (ctx_spanId ctx))).
Proof.
  intros Ht Hs Hlt Hls.
  assert (Hrule : length_rule (toTraceparent ctx) (ctx_traceId ctx)
                    (ctx_spanId ctx)).
  { exists "00", "01". by split_and!. }
  split; [done|]. apply parseTraceparent_Some. eauto.
Qed.



End IdsFacts.

(** ** Tracing service: reading spans back *)

Module TracingMore.
Import Tracing TracingSpec MapFacts TracingFacts.

Lemma slice_from_nonneg {A} (l : list A) (k : Z) :
  0 ≤ k → JS.slice l k None = drop (Z.to_nat k) l.
Proof.
  intros Hk. unfold JS.slice, JS.rel_index.
  destruct (Z.ltb_spec k 0); [lia|].
  destruct (Z.le_ge_cases k (Z.of_nat (length l))).
  - rewrite Z.min_l by done. apply take_ge. rewrite length_drop. lia.
  - rewrite Z.min_r, Nat2Z.id by done.
    rewrite !drop_ge by lia. apply take_nil.
Qed.

Lemma held_length (s : TracingService) (rs : list nat) :
  (∀ r, r ∈ rs → (r < length (objects s))%nat) →
  length (held s rs) = length rs.
Proof.
  induction rs as [|r rs IH]; intros Hrs; [done|].
  destruct (lookup_lt_is_Some_2 (objects s) r) as [sp Hsp].
  { apply Hrs, list_elem_of_here. }
  change (held s (r :: rs))
    with (match objects s !! r with
          | Some y => y :: held s rs
          | None => held s rs
          end).
  rewrite Hsp. simpl. rewrite IH; [done|].
  intros r' Hr'. by apply Hrs, list_elem_of_further.
Qed.

Lemma held_ext (s s' : TracingService) (rs : list nat) :
  (∀ r, r ∈ rs → objects s' !! r = objects s !! r) →
  held s' rs = held s rs.
Proof.
  induction rs as [|r rs IH]; intros Hrs; [done|].
  change (held ?t (r :: rs))
    with (match objects t !! r with
          | Some y => y :: held t rs
          | None => held t rs
          end).
  rewrite (Hrs r) by apply list_elem_of_here.
  rewrite IH; [done|]. intros r' Hr'. by apply Hrs, list_elem_of_further.
Qed.

Lemma held_app (s : TracingService) (rs1 rs2 : list nat) :
  held s (rs1 ++ rs2) = held s rs1 ++ held s rs2.
Proof. apply omap_app. Qed.

Lemma held_reverse (s : TracingService) (rs : list nat) :
  held s (reverse rs) = reverse (held s rs).
Proof.
  induction rs as [|r rs IH]; [done|].
  rewrite reverse_cons, held_app, IH.
  change (held s (r :: rs)) with (held s ([r] ++ rs)).
  rewrite held_app, reverse_app. f_equal.
  unfold held. simpl. by destruct (objects s !! r).
Qed.

(** What [getRecentSpans] reads in a well-formed state. *)
Lemma getRecentSpans_reads (limit : Z) (s : TracingService) :
  wf s →
  let n := length (completedSpans s) in
  let skipped := if 0 <? limit then (n - Z.to_nat limit)%nat
                 else Z.to_nat (- limit) in
  getRecentSpans limit s
  = JS.Returns (reverse (held s (drop skipped (completedSpans s)))) ∧
  length (held s (drop skipped (completedSpans s))) = (n - skipped)%nat.
Proof.
  intros Hwf n skipped.
  assert (Hslice : JS.slice (completedSpans s) (- limit) None
                   = drop skipped (completedSpans s)).
  { unfold skipped. destruct (Z.ltb_spec 0 limit).
    - by rewrite JSFacts.slice_from_negative.
    - apply slice_from_nonneg. lia. }
  assert (Hvalid : ∀ r, r ∈ drop skipped (completedSpans s) →
                        (r < length (objects s))%nat).
  { intros r Hr. apply (wf_completed s Hwf).
    by eapply subseteq_drop. }
  split.
  - unfold getRecentSpans. rewrite Hslice.
    rewrite read_all_held.
    + by rewrite held_reverse.
    + intros r Hr. apply Hvalid. by apply elem_of_reverse.
  - rewrite held_length by done. by rewrite length_drop.
Qed.



Lemma filter_none {A} (f : A → bool) (l : list A) :
  (∀ x, x ∈ l → f x = false) → List.filter f l = [].
Proof.
  induction l as [|x l IH]; intros Hl; [done|]. simpl.
  rewrite (Hl x) by apply list_elem_of_here.
  apply IH. intros y Hy. by apply Hl, list_elem_of_further.
Qed.

(** Objects the service already held, read in a later state in which they
    are unchanged, add nothing to a trace the service held no span of. *)
Lemma filter_held_old (tid : string) (s s' : TracingService) (rs : list nat) :
  trace_spans tid s = [] →
  (∀ r, r ∈ rs →
        (r ∈ map snd (activeSpans s) ∨ r ∈ completedSpans s) ∧
        objects s' !! r = objects s !! r) →
  List.filter (of_trace tid) (held s' rs) = [].
Proof.
  intros Hnone Hrs.
  rewrite (held_ext s s' rs) by (intros r Hr; by apply Hrs).
  apply filter_none. intros sp (r & Hr & Hsp)%elem_of_held.
  destruct (of_trace tid sp) eqn:E; [|done]. exfalso.
  assert (sp ∈ trace_spans tid s) as Hin.
  { apply elem_of_trace_spans. split; [by apply String.eqb_eq|].
    exists r. split; [by apply Hrs|done]. }
  rewrite Hnone in Hin. by apply elem_of_nil in Hin.
Qed.

Lemma Map_set_split {V} (m : list (string * V)) (k : string) (v : V) :
  NoDup (map fst m) →
  ∃ m1 m2, Map_set k v m = m1 ++ ((k, v) :: m2) ∧
           Map_delete k (Map_set k v m) = m1 ++ m2 ∧
           ∀ x, x ∈ m1 ++ m2 → x ∈ m.
Proof.
  intros Hnd.
  destruct (Map_get_Some _ _ _ (Map_set_get m k v))
    as (m1 & m2 & Hset & Hk1 & Hdel & _).
  exists m1, m2. split_and!; [done..|].
  intros [k' v'] Hin.
  assert ((k', v') ∈ Map_set k v m) as Hin'.
  { rewrite Hset. rewrite elem_of_app in *. rewrite elem_of_cons. tauto. }
  apply Map_set_elem_of in Hin' as [[= -> ->]|?]; [|done]. exfalso.
  pose proof (Map_set_NoDup m k v Hnd) as Hnd'.
  rewrite Hset, map_app in Hnd'. simpl in Hnd'.
  apply NoDup_app in Hnd' as (_ & Hdisj & [Hk2 _]%NoDup_cons).
  apply elem_of_app in Hin as [Hin|Hin].
  - apply Hk1, list_elem_of_fmap. by exists (k, v).
  - apply Hk2, list_elem_of_fmap. by exists (k, v).
Qed.

(** X3. The life of a sampled root span. In a reachable state that holds no
    span of the trace id yet, [startTrace] followed by [endSpan] on the
    returned span id leaves the id out of the active map, and [getTrace]
    returns exactly one span for the trace: open in between, and afterwards
    closed with the given status, the end time of the [endSpan] call and
    the difference of the two clock readings as duration. *)
Theorem trace_lifecycle cfg tid sid draw now name tgs now' ship st tgs'
    (s : TracingService) :
  reachable cfg s →
  shouldSample cfg draw = true →
  sid ∉ completed_ids s →
  trace_spans tid s = [] →
  let root := new_span cfg sid tid None name now tgs in
  let started := (startTrace cfg tid sid draw now name tgs s).2 in
  ∃ ended,
    endSpan cfg now' ship sid st tgs' started = JS.Returns ended ∧
    getTrace tid started = JS.Returns [root] ∧
    getTrace tid ended = JS.Returns [close_span now' st tgs' root] ∧
    (sid ∉ active_ids ended) ∧
    status (close_span now' st tgs' root) = st ∧
    endTime (close_span now' st tgs' root) = Some now' ∧
    duration (close_span now' st tgs' root) = Some (now' - now).
Proof.
  intros Hs Hsample Hnew Hnone root started.
  pose proof (reachable_wf _ _ Hs) as Hwf.
  assert (Hstarted : started = register root s).
  { unfold started, startTrace. by rewrite Hsample. }
  assert (Hwf1 : wf started) by (rewrite Hstarted; by apply wf_register).
  destruct (Map_set_split (activeSpans s) sid (length (objects s))
              (wf_keys s Hwf)) as (m1 & m2 & Hset & Hdel & Hsub).
  remember (length (objects s)) as len eqn:Hlen.
  assert (Hact : activeSpans started = m1 ++ (sid, len) :: m2).
  { rewrite Hstarted. unfold register. simpl. by rewrite <- Hlen. }
  assert (Hdel' : Map_delete sid (activeSpans started) = m1 ++ m2).
  { rewrite Hstarted. unfold register. simpl. by rewrite <- Hlen. }
  assert (Hcomp : completedSpans started = completedSpans s)
    by by rewrite Hstarted.
  assert (Hobjs : ∀ r, (r < len)%nat → objects started !! r = objects s !! r).
  { intros r Hr. rewrite Hstarted. unfold register. simpl.
    apply lookup_app_l. lia. }
  assert (Hobj : objects started !! len = Some root).
  { rewrite Hstarted. unfold register. simpl.
    by rewrite lookup_app_r, Hlen, Nat.sub_diag by lia. }
  assert (Hget : Map_get sid (activeSpans started) = Some len).
  { rewrite Hstarted. unfold register. simpl. rewrite <- Hlen.
    apply Map_set_get. }
  assert (Hold : ∀ r, r ∈ map snd (m1 ++ m2) ∨ r ∈ completedSpans s →
                      (r ∈ map snd (activeSpans s) ∨ r ∈ completedSpans s) ∧
                      (r < len)%nat).
  { intros r [([k r'] & -> & Hin)%list_elem_of_fmap|Hr].
    - apply Hsub in Hin. split.
      + left. apply list_elem_of_fmap. by exists (k, r').
      + rewrite Hlen. eapply id_of_lt. by apply (wf_active s Hwf).
    - split; [by right|]. rewrite Hlen. by apply (wf_completed s Hwf). }
  assert (Hroot : of_trace tid root = true).
  { unfold of_trace. simpl. apply String.eqb_refl. }
  eexists. split; [exact (endSpan_active cfg now' ship sid st tgs' started
                             len root Hget Hobj)|].
  assert (Hwf2 : wf (mkTracingService
                       (<[len := close_span now' st tgs' root]> (objects started))
                       (Map_delete sid (activeSpans started))
                       (pushed_completed started len))).
  { apply (wf_endSpan cfg now' ship sid st tgs' started); [exact Hwf1|].
    by apply endSpan_active. }
  split_and!; try done.
  - rewrite (getTrace_wf tid started Hwf1). f_equal.
    unfold trace_spans. rewrite Hact, Hcomp, map_app. simpl.
    change (held started (map snd m1 ++ len :: map snd m2))
      with (held started (map snd m1 ++ [len] ++ map snd m2)).
    rewrite !held_app, !List.filter_app.
    rewrite (filter_held_old tid s started (map snd m1)),
      (filter_held_old tid s started (map snd m2)),
      (filter_held_old tid s started (completedSpans s)); try done.
    + unfold held. simpl. rewrite Hobj. simpl. by rewrite Hroot.
    + intros r Hr. destruct (Hold r (or_intror Hr)) as [? Hlt].
      split; [done|]. by apply Hobjs.
    + intros r Hr.
      destruct (Hold r) as [? Hlt].
      { left. rewrite map_app. apply elem_of_app. by right. }
      split; [done|]. by apply Hobjs.
    + intros r Hr.
      destruct (Hold r) as [? Hlt].
      { left. rewrite map_app. apply elem_of_app. by left. }
      split; [done|]. by apply Hobjs.
  - rewrite (getTrace_wf tid _ Hwf2). f_equal.
    unfold trace_spans. simpl.
    destruct (pushed_completed_eq started len) as [n ->].
    rewrite Hdel', Hcomp, held_app, !List.filter_app.
    assert (Hsame : ∀ r, (r < len)%nat →
              <[len := close_span now' st tgs' root]> (objects started) !! r
              = objects s !! r).
    { intros r Hr. rewrite list_lookup_insert_ne by lia. by apply Hobjs. }
    rewrite (filter_held_old tid s _ (map snd (m1 ++ m2))),
      (filter_held_old tid s _ (drop n (completedSpans s))); try done.
    + unfold held. simpl.
      rewrite list_lookup_insert_eq by by eapply lookup_lt_Some.
      cbn [List.filter mbind option_bind default omap list_omap].
      change (of_trace tid (close_span now' st tgs' root))
        with (of_trace tid root).
      by rewrite Hroot.
    + intros r Hr. destruct (Hold r) as [? Hlt].
      { right. by eapply subseteq_drop. }
      split; [done|]. by apply Hsame.
    + intros r Hr. destruct (Hold r (or_introl Hr)) as [? Hlt].
      split; [done|]. by apply Hsame.
  - by apply (Map_delete_NoDup (activeSpans started) sid (wf_keys _ Hwf1)).
Qed.

Lemma trace_lifecycle_witness :
  reachable tracing_on init ∧
  shouldSample tracing_on 0 = true ∧
  ("00f067aa0ba902b7" ∉ completed_ids init) ∧
  trace_spans "4bf92f3577b34da6a3ce929d0e0e4736" init = [] ∧
  ∃ ended,
    endSpan tracing_on 1042 (Transport.Rejected "ECONNREFUSED")
      "00f067aa0ba902b7" ok None one_active = JS.Returns ended ∧
    getTrace "4bf92f3577b34da6a3ce929d0e0e4736" ended
    = JS.Returns
        [mkSpan "00f067aa0ba902b7" "4bf92f3577b34da6a3ce929d0e0e4736" None
           "GET /x" "payd-backend" 1000 (Some 1042) (Some 42) ok ∅ []].
Proof.
  assert (H1 : reachable tracing_on init) by apply reachable_init.
  assert (H3 : "00f067aa0ba902b7" ∉ completed_ids init)
    by apply not_elem_of_nil.
  split_and!; [done|reflexivity|done|reflexivity|].
  destruct (trace_lifecycle tracing_on "4bf92f3577b34da6a3ce929d0e0e4736"
              "00f067aa0ba902b7" 0 1000 "GET /x" None 1042
              (Transport.Rejected "ECONNREFUSED") ok None init
              H1 eq_refl H3 eq_refl)
    as (ended & Hend & _ & Htrace & _).
  exists ended. split; [exact Hend|exact Htrace].
Defined.

(** X4. Edits of an active span reach its completed form. Tags added with
    [addSpanTags], a log entry added with [addSpanLog] and the tags passed
    to [endSpan] all end up on the one object that moves to the end of the
    completed store: the log entry is appended, and for every tag key the
    most recent write wins. *)
Theorem edits_reach_completion cfg sid t1 now_l msg data now' ship st t2
    (s : TracingService) (r : nat) :
  reachable cfg s →
  Map_get sid (activeSpans s) = Some r →
  ∃ sp s1 s2 s3,
    objects s !! r = Some sp ∧
    addSpanTags sid t1 s = JS.Returns s1 ∧
    addSpanLog now_l sid msg data s1 = JS.Returns s2 ∧
    endSpan cfg now' ship sid st t2 s2 = JS.Returns s3 ∧
    let final := close_span now' st t2
                   (add_log (mkLogEntry now_l msg data) (add_tags t1 sp)) in
    objects s3 !! r = Some final ∧
    last (completedSpans s3) = Some r ∧
    (sid ∉ active_ids s3) ∧
    logs final = logs sp ++ [mkLogEntry now_l msg data] ∧
    ∀ k, tags final !! k
         = match default ∅ t2 !! k with
           | Some v => Some v
           | None => match t1 !! k with
                     | Some v => Some v
                     | None => tags sp !! k
                     end
           end.
Proof.
  intros Hwf%reachable_wf Hget.
  destruct (wf_active_object s sid r Hwf Hget) as (sp & Hr & _).
  assert (Hlt : (r < length (objects s))%nat) by by eapply lookup_lt_Some.
  eexists sp, _, _, _. split; [done|].
  split; [by apply addSpanTags_active|].
  split.
  { apply addSpanLog_active; simpl; [done|].
    by apply list_lookup_insert_eq. }
  split.
  { apply endSpan_active; simpl; [done|].
    apply list_lookup_insert_eq. by rewrite length_insert. }
  simpl. split_and!.
  - apply list_lookup_insert_eq. by rewrite !length_insert.
  - match goal with
    | |- last (pushed_completed ?t r) = _ =>
        destruct (pushed_completed_eq t r) as [n ->]
    end.
    apply last_snoc.
  - by apply (Map_delete_NoDup (activeSpans s) sid (wf_keys s Hwf)).
  - done.
  - intros k. destruct t2 as [t2|]; simpl.
    + rewrite !lookup_union.
      by destruct (t2 !! k), (t1 !! k), (tags sp !! k).
    + rewrite lookup_empty, lookup_union.
      by destruct (t1 !! k), (tags sp !! k).
Qed.

Lemma edits_reach_completion_witness :
  reachable tracing_on one_active ∧
  Map_get "00f067aa0ba902b7" (activeSpans one_active) = Some 0%nat ∧
  ∃ s1 s2 s3 final,
    addSpanTags "00f067aa0ba902b7" {[ "user" := TagStr "a" ]} one_active
    = JS.Returns s1 ∧
    addSpanLog 1010 "00f067aa0ba902b7" "validated" None s1 = JS.Returns s2 ∧
    endSpan tracing_on 1042 (Transport.Rejected "ECONNREFUSED")
      "00f067aa0ba902b7" ok (Some {[ "user" := TagStr "b" ]}) s2
    = JS.Returns s3 ∧
    objects s3 !! 0%nat = Some final ∧
    tags final !! "user" = Some (TagStr "b") ∧
    logs final = [mkLogEntry 1010 "validated" None].
Proof.
  split; [exact one_active_reachable|]. split; [reflexivity|].
  destruct (edits_reach_completion tracing_on "00f067aa0ba902b7"
              {[ "user" := TagStr "a" ]} 1010 "validated" None 1042
              (Transport.Rejected "ECONNREFUSED") ok
              (Some {[ "user" := TagStr "b" ]}) one_active 0
              one_active_reachable eq_refl)
    as (sp & s1 & s2 & s3 & Hsp & H1 & H2 & H3 & Hobj & _ & _ & Hlogs & Htags).
  injection Hsp as <-.
  exists s1, s2, s3. eexists. split_and!; [done..|exact Hobj| |exact Hlogs].
  by rewrite Htags.
Defined.



End TracingMore.

(** ** The tracing middleware *)

Module MiddlewareFacts.
Import Tracing TracingSpec MapFacts TracingFacts TraceparentSpec
  TraceparentFacts TracingMiddleware.

Lemma length_rule_parses (sid h t p : string) :
  length_rule h t p →
  parseTraceparent sid h = Some (mkTraceContext t sid (Some p)) ∧
  h ≠ EmptyString ∧ p ≠ EmptyString.
Proof.
  intros Hrule.
  assert (Hparse : parseTraceparent sid h = Some (mkTraceContext t sid (Some p)))
    by (apply parseTraceparent_Some; eauto).
  split; [done|]. split.
  - intros ->. by vm_compute in Hparse.
  - destruct Hrule as (_ & _ & _ & _ & _ & _ & _ & _ & Hlen). by intros ->.
Qed.

(** What [on_request] does with a header that follows the length rule. *)
Lemma on_request_continues cfg e now req (s : TracingService) h t p :
  req_traceparent req = Some h → length_rule h t p →
  on_request cfg e now req s
  = startSpan cfg (span_sid e) now t p (operation req) (Some (span_tags req)) s.
Proof.
  intros Hh Hrule.
  destruct (length_rule_parses (parse_sid e) h t p Hrule) as (Hparse & Hne & Hp).
  unfold on_request. rewrite Hh. simpl.
  destruct (String.eqb_spec h EmptyString) as [|_]; [done|]. simpl.
  rewrite Hparse. simpl.
  by destruct (String.eqb_spec p EmptyString).
Qed.

(** What it does without such a header. *)
Lemma on_request_starts cfg e now req (s : TracingService) :
  (∀ h t p, req_traceparent req = Some h → ¬ length_rule h t p) →
  on_request cfg e now req s
  = startTrace cfg (tid e) (root_sid e) (draw e) now (operation req)
      (Some (trace_tags req)) s.
Proof.
  intros Hno. unfold on_request.
  destruct (req_traceparent req) as [h|] eqn:Hh; simpl; [|done].
  destruct (String.eqb h EmptyString); simpl; [done|].
  destruct (parseTraceparent (parse_sid e) h) as [ctx|] eqn:Hparse; [|done].
  apply parseTraceparent_Some in Hparse as (t & p & Hrule & _).
  by destruct (Hno h t p eq_refl).
Qed.

(** X6. The middleware propagates the trace. With a [traceparent] header of
    four fields whose ids have 32 and 16 characters, the request continues
    the incoming trace: its context carries the incoming trace id and the
    incoming parent id, the span is recorded whenever tracing is enabled,
    and the response header names the same trace with the new span id. In
    every other case a new root trace is started, recorded only if sampled. *)
Theorem middleware_propagates cfg e now req (s : TracingService) :
  (∀ h t p,
     req_traceparent req = Some h → length_rule h t p →
     let r := on_request cfg e now req s in
     r.1 = mkTraceContext t (span_sid e) (Some p) ∧
     response_header r.1 = "00-" +:+ t +:+ "-" +:+ span_sid e +:+ "-01" ∧
     r.2 = if enabled cfg
           then register (new_span cfg (span_sid e) t (Some p) (operation req)
                            now (Some (span_tags req))) s
           else s) ∧
  ((∀ h t p, req_traceparent req = Some h → ¬ length_rule h t p) →
   let r := on_request cfg e now req s in
   r.1 = mkTraceContext (tid e) (root_sid e) None ∧
   response_header r.1
   = "00-" +:+ tid e +:+ "-" +:+ root_sid e +:+ "-01" ∧
   r.2 = if shouldSample cfg (draw e)
         then register (new_span cfg (root_sid e) (tid e) None (operation req)
                          now (Some (trace_tags req))) s
         else s).
Proof.
  split.
  - intros h t p Hh Hrule. simpl.
    by rewrite (on_request_continues cfg e now req s h t p Hh Hrule).
  - intros Hno. simpl. by rewrite (on_request_starts cfg e now req s Hno).
Qed.

Example middleware_continues_incoming_trace :
  let req := mkRequest "GET" "/api/employees" "/api/employees?page=2" None
               (Some "00-4bf92f3577b34da6a3ce929d0e0e4736-00f067aa0ba902b7-01")
               (Some "curl/8.0") in
  let e := mkEntropy "1111111111111111" "b7ad6b7169203331"
             "0af7651916cd43dd8448eb211c80319c" "2222222222222222" 0 in
  let r := on_request tracing_on e 1000 req init in
  response_header r.1
  = "00-4bf92f3577b34da6a3ce929d0e0e4736-b7ad6b7169203331-01" ∧
  active_ids r.2 = ["b7ad6b7169203331"].
Proof. by vm_compute. Qed.

Lemma Map_delete_snoc {V} (m : list (string * V)) (k : string) (v : V) :
  k ∉ map fst m → Map_delete k (m ++ [(k, v)]) = m.
Proof.
  induction m as [|[k' v'] m IH]; simpl.
  - intros _. by rewrite String.eqb_refl.
  - intros [Hne Hk]%not_elem_of_cons.
    destruct (String.eqb_spec k' k) as [->|_]; [done|]. by rewrite IH.
Qed.

(** [on_request] leaves the state alone or registers one span under the
    span id of the context it returns, which is one of the generated ids. *)
Lemma on_request_shape cfg e now req (s : TracingService) :
  let r := on_request cfg e now req s in
  (ctx_spanId r.1 = span_sid e ∨ ctx_spanId r.1 = root_sid e) ∧
  (r.2 = s ∨ ∃ sp, r.2 = register sp s ∧ spanId sp = ctx_spanId r.1).
Proof.
  simpl. unfold on_request.
  destruct (truthy_str (req_traceparent req)).
  - destruct (parseTraceparent _ _) as [parsed|].
    + unfold startSpan. simpl. split; [by left|].
      destruct (enabled cfg); [right; by eexists|by left].
    + unfold startTrace. simpl. split; [by right|].
      destruct (shouldSample cfg (draw e)); [right; by eexists|by left].
  - unfold startTrace. simpl. split; [by right|].
    destruct (shouldSample cfg (draw e)); [right; by eexists|by left].
Qed.



End MiddlewareFacts.

(** ** The trace-detail route in reachable states *)

Module RoutesMore.
Import Tracing TracingSpec TracingFacts Routes RoutesSpec RoutesFacts.



End RoutesMore.

(** ** Metrics collector: errors, queries, status classes *)

Module MetricsMore.
Import Metrics Summary MetricsFacts.

Lemma filter_filter_implied {A} (f g : A → bool) (l : list A) :
  (∀ x, f x = true → g x = true) →
  List.filter f (List.filter g l) = List.filter f l.
Proof.
  intros Himp. induction l as [|x l IH]; simpl; [done|].
  destruct (g x) eqn:Hg; simpl.
  - by rewrite IH.
  - destruct (f x) eqn:Hf; [|done]. rewrite (Himp x Hf) in Hg. done.
Qed.

(** An error stamped within the last minute before [T], recorded while the
    clock is not past [T], raises the rate read at [T] by one. *)
Lemma getErrorRate_recordError (stamp now T : Z) (msg path : string)
    (s : MetricsCollector) :
  T - 60000 < stamp → now ≤ T →
  getErrorRate T (recordError stamp now msg path s) = getErrorRate T s + 1.
Proof.
  intros Hstamp Hnow. unfold getErrorRate, recordError, errorWindowMs. simpl.
  rewrite filter_filter_implied.
  2: { intros e He. apply Z.ltb_lt in He. apply Z.ltb_lt. lia. }
  rewrite List.filter_app, length_app. simpl.
  destruct (Z.ltb_spec (T - 60000) stamp); [|lia]. simpl. lia.
Qed.

Lemma getErrorRate_record_errors (evs : list ErrorEvent) (T : Z)
    (s : MetricsCollector) :
  Forall (λ e, T - 60000 < ev_stamp e ∧ ev_now e ≤ T) evs →
  getErrorRate T (record_errors evs s)
  = getErrorRate T s + Z.of_nat (length evs).
Proof.
  intros Hevs. revert s.
  induction Hevs as [|e evs [Hstamp Hnow] _ IH]; intros s; simpl; [lia|].
  unfold record_errors in *. simpl. rewrite IH.
  rewrite getErrorRate_recordError by done. lia.
Qed.

(** X9. The error log is a sliding window. After [recordError] no retained
    entry is older than five minutes, and what is retained was in the log
    before or is the new entry. Errors stamped within the last minute
    before [T] all count in the rate read at [T]: after [k] of them on an
    empty log the rate is [k]. *)
Theorem error_rate_counts_last_minute :
  (∀ stamp now msg path s e,
     e ∈ errorLog (recordError stamp now msg path s) →
     now - 300000 < err_timestamp e ∧
     (e ∈ errorLog s ∨ e = mkErrorEntry msg path stamp)) ∧
  (∀ evs T s,
     Forall (λ e, T - 60000 < ev_stamp e ∧ ev_now e ≤ T) evs →
     getErrorRate T (record_errors evs s)
     = getErrorRate T s + Z.of_nat (length evs)) ∧
  (∀ evs T,
     Forall (λ e, T - 60000 < ev_stamp e ∧ ev_now e ≤ T) evs →
     getErrorRate T (record_errors evs init) = Z.of_nat (length evs)) ∧
  (∀ T s, 0 ≤ getErrorRate T s ≤ Z.of_nat (length (errorLog s))).
Proof.
  split_and!.
  - intros stamp now msg path s e He. unfold recordError in He. simpl in He.
    apply list_elem_of_In, filter_In in He as [Hin Hts].
    apply Z.ltb_lt in Hts. split; [done|].
    apply list_elem_of_In, elem_of_app in Hin as [?|Heq]; [by left|].
    apply list_elem_of_singleton in Heq. by right.
  - apply getErrorRate_record_errors.
  - intros evs T Hevs. by rewrite getErrorRate_record_errors.
  - intros T s. unfold getErrorRate. split; [lia|].
    apply Nat2Z.inj_le. apply List.filter_length_le.
Qed.

Example twenty_five_errors_in_a_minute :
  getErrorRate 1700000060000
    (record_errors
       (map (λ i, mkErrorEvent (1700000000001 + 1000 * Z.of_nat i)
                    (1700000000002 + 1000 * Z.of_nat i) "boom" "/api/pay")
          (seq 0 25)) init) = 25.
Proof. by vm_compute. Qed.

(** X10. The query aggregates after a run of [recordDatabaseQuery] calls: the
    count grows by the number of queries, the total by their sum, and the
    slow counter by the number of queries that took more than 1000 ms; a
    query of exactly 1000 ms is not slow. Nothing else changes. *)
Theorem database_aggregates (ds : list Z) (s : MetricsCollector) :
  let s' := record_queries ds s in
  queryCount s' = queryCount s + Z.of_nat (length ds) ∧
  totalDurationMs (dbMetrics s')
  = totalDurationMs (dbMetrics s) + foldr Z.add 0 ds ∧
  slowQueries s'
  = slowQueries s
    + Z.of_nat (length (List.filter (λ d, slowQueryThresholdMs <? d) ds)) ∧
  slowQueries s' - slowQueries s ≤ queryCount s' - queryCount s ∧
  requestMetrics s' = requestMetrics s ∧ errorLog s' = errorLog s.
Proof.
  revert s. induction ds as [|d ds IH]; intros s; simpl.
  - split_and!; try done; lia.
  - destruct (IH (recordDatabaseQuery d s)) as (Hc & Ht & Hsl & Hle & Hr & He).
    unfold record_queries in *. simpl.
    unfold queryCount, slowQueries in *. simpl in *.
    destruct (slowQueryThresholdMs <? d); simpl in *;
      (split_and!; [lia|lia|lia|lia|done|done]).
Qed.

Example slow_query_threshold_is_strict :
  slowQueries (record_queries [999; 1000; 1001; 5000] init) = 2 ∧
  queryCount (record_queries [999; 1000; 1001; 5000] init) = 4.
Proof. by vm_compute. Qed.

Lemma append_cons (c : ascii) (a b : string) :
  String c a +:+ b = String c (a +:+ b).
Proof. reflexivity. Qed.

Lemma append_length (a b : string) :
  String.length (a +:+ b) = (String.length a + String.length b)%nat.
Proof.
  induction a as [|c a IH]; [done|].
  rewrite append_cons. simpl. by rewrite IH.
Qed.

Lemma append_cancel_r (a b c : string) : a +:+ c = b +:+ c → a = b.
Proof.
  revert b. induction a as [|x a IH]; intros [|y b] H; [done|..].
  - apply (f_equal String.length) in H.
    rewrite !append_length in H. simpl in H. lia.
  - apply (f_equal String.length) in H.
    rewrite !append_length in H. simpl in H. lia.
  - rewrite !append_cons in H. injection H as -> H. f_equal. by apply IH.
Qed.

Lemma or_num_zero (o : option Z) : JS.or_num o 0 = default 0 o.
Proof.
  destruct o as [z|]; [|done]. unfold JS.or_num. simpl.
  by destruct (Z.eqb_spec z 0) as [->|].
Qed.

Lemma bump_lookup (k g : string) (acc : gmap string Z) :
  bump k acc !! g
  = if decide (k = g) then Some (default 0 (acc !! k) + 1) else acc !! g.
Proof.
  unfold bump. rewrite or_num_zero.
  destruct (decide (k = g)) as [->|Hne].
  - by rewrite lookup_insert_eq.
  - by rewrite lookup_insert_ne.
Qed.

(** Counting by key: the entry of a key is the number of elements that
    carry it, and a key no element carries has no entry. *)
Lemma fold_bump_count {A} (key : A → string) (l : list A)
    (acc : gmap string Z) (g : string) :
  default 0 (foldl (λ acc m, bump (key m) acc) acc l !! g)
  = default 0 (acc !! g)
    + Z.of_nat (length (List.filter (λ m, bool_decide (key m = g)) l)).
Proof.
  revert acc. induction l as [|m l IH]; intros acc; simpl; [lia|].
  rewrite IH, bump_lookup.
  destruct (decide (key m = g)) as [->|Hne].
  - rewrite bool_decide_eq_true_2 by done. simpl. lia.
  - rewrite bool_decide_eq_false_2 by done. lia.
Qed.

Lemma fold_bump_None {A} (key : A → string) (l : list A)
    (acc : gmap string Z) (g : string) :
  foldl (λ acc m, bump (key m) acc) acc l !! g = None ↔
  acc !! g = None ∧ ∀ m, m ∈ l → key m ≠ g.
Proof.
  revert acc. induction l as [|m l IH]; intros acc; simpl.
  - split; [intros H; split; [done|]|by intros [H _]].
    intros m Hm. by apply elem_of_nil in Hm.
  - rewrite IH, bump_lookup. destruct (decide (key m = g)) as [Heq|Hne].
    + split; [by intros [? _]|]. intros [_ Hall]. exfalso.
      apply (Hall m); [apply list_elem_of_here|done].
    + split.
      * intros [Hacc Hall]. split; [done|].
        intros m' [->|Hm']%elem_of_cons; [done|by apply Hall].
      * intros [Hacc Hall]. split; [done|].
        intros m' Hm'. by apply Hall, list_elem_of_further.
Qed.

Lemma statusGroup_5xx (m : RequestMetric) :
  statusGroup m = "5xx" ↔ 500 ≤ statusCode m < 600.
Proof.
  unfold statusGroup.
  change "5xx" with (pretty 5 +:+ "xx").
  split.
  - intros H%append_cancel_r. apply (inj pretty) in H.
    assert (statusCode m = 100 * 5 + statusCode m `mod` 100) as Hdiv
      by (rewrite <- H; apply Z.div_mod; lia).
    pose proof (Z.mod_pos_bound (statusCode m) 100 ltac:(lia)). lia.
  - intros Hrange. do 2 f_equal.
    symmetry. apply (Z.div_unique _ _ _ (statusCode m - 500)); lia.
Qed.

(** X11. The status classes of the summary. For every class,
    [byStatus] holds the number of retained requests of that class, and no
    entry for a class without requests; [errors.total] is the number of
    retained requests with a status from 500 to 599, and never more than
    the request total. *)
Theorem status_class_counts (s : MetricsCollector) (g : string) :
  default 0 (byStatus s !! g)
  = Z.of_nat (length (List.filter (λ m, bool_decide (statusGroup m = g))
                        (requestMetrics s))) ∧
  (byStatus s !! g = None ↔
   ∀ m, m ∈ requestMetrics s → statusGroup m ≠ g) ∧
  errors_total s
  = Z.of_nat (length (List.filter
                        (λ m, (500 <=? statusCode m) && (statusCode m <? 600))
                        (requestMetrics s))) ∧
  0 ≤ errors_total s ≤ total s.
Proof.
  assert (Hcount : ∀ g', default 0 (byStatus s !! g')
            = Z.of_nat (length (List.filter
                                  (λ m, bool_decide (statusGroup m = g'))
                                  (requestMetrics s)))).
  { intros g'. unfold byStatus. rewrite fold_bump_count.
    by rewrite lookup_empty. }
  assert (Herr : errors_total s
            = Z.of_nat (length (List.filter
                        (λ m, (500 <=? statusCode m) && (statusCode m <? 600))
                        (requestMetrics s)))).
  { unfold errors_total. rewrite or_num_zero, Hcount. do 2 f_equal.
    apply List.filter_ext. intros m.
    destruct (bool_decide_reflect (statusGroup m = "5xx")) as [H|H];
      rewrite statusGroup_5xx in H; symmetry.
    - apply andb_true_iff. split; [apply Z.leb_le|apply Z.ltb_lt]; lia.
    - apply andb_false_iff.
      destruct (Z.leb_spec 500 (statusCode m)); [|by left].
      right. apply Z.ltb_ge. lia. }
  split_and!; [apply Hcount| |exact Herr| |].
  - unfold byStatus. rewrite fold_bump_None, lookup_empty.
    split; [by intros [_ ?]|by split].
  - rewrite Herr. lia.
  - rewrite Herr. unfold total. apply Nat2Z.inj_le, List.filter_length_le.
Qed.

Example status_classes :
  let s := mkMetricsCollector
             [mkRequestMetric "GET" "/a" 200 5 0;
              mkRequestMetric "POST" "/b" 503 9 0;
              mkRequestMetric "GET" "/c" 404 2 0;
              mkRequestMetric "GET" "/d" 500 7 0] [] (mkDbMetrics 0 0 0) in
  byStatus s = {[ "2xx" := 1; "4xx" := 1; "5xx" := 2 ]} ∧
  byMethod s = {[ "GET" := 3; "POST" := 1 ]} ∧
  errors_total s = 2.
Proof. by vm_compute. Qed.

(** X12. Computed in binary64, as the engine does, the two percentiles of the
    summary read the same array element as exact nearest-rank arithmetic:
    for every sorted array of at most [maxMetricsRetained] durations, and
    so for the request buffer after every [recordRequest]. *)
Theorem summary_percentiles_binary64 :
  (∀ sorted : list Z,
     Z.of_nat (length sorted) ≤ maxMetricsRetained →
     percentile_f64 sorted 95 = percentile sorted 95 ∧
     percentile_f64 sorted 99 = percentile sorted 99) ∧
  (∀ m s,
     percentile_f64 (durations (recordRequest m s)) 95
     = p95DurationMs (recordRequest m s) ∧
     percentile_f64 (durations (recordRequest m s)) 99
     = p99DurationMs (recordRequest m s)).
Proof.
  assert (Hlist : ∀ sorted : list Z,
            Z.of_nat (length sorted) ≤ maxMetricsRetained →
            percentile_f64 sorted 95 = percentile sorted 95 ∧
            percentile_f64 sorted 99 = percentile sorted 99).
  { intros sorted Hlen.
    destruct (float_rank_exact (Z.of_nat (length sorted)) ltac:(lia))
      as [H95 H99].
    unfold percentile_f64, percentile. rewrite H95, H99.
    by destruct (length sorted =? 0)%nat. }
  split; [exact Hlist|].
  intros m s. apply Hlist. unfold durations.
  rewrite JSFacts.sort_length, length_map.
  by apply (JSFacts.halve_length maxMetricsRetained 5000).
Qed.

End MetricsMore.

(** ** Alert store, cooldown keys, acknowledgement *)

Module AlertingMore.
Import Alerting AlertingSpec MoreRoutes.

Lemma pushed_alerts_length (s : AlertingService) (a : Alert) :
  Z.of_nat (length (pushed_alerts s a)) ≤ maxAlerts.
Proof. by apply (JSFacts.halve_length maxAlerts 500). Qed.

Lemma pushed_alerts_within (s : AlertingService) (a : Alert) :
  Z.of_nat (length (alerts s)) < maxAlerts →
  pushed_alerts s a = alerts s ++ [a].
Proof.
  intros Hlen. apply (JSFacts.halve_within maxAlerts 500).
  rewrite length_app. simpl. lia.
Qed.

Lemma pushed_alerts_over (s : AlertingService) (a : Alert) :
  maxAlerts ≤ Z.of_nat (length (alerts s)) →
  pushed_alerts s a = drop (length (alerts s) - 499) (alerts s) ++ [a].
Proof.
  intros Hlen.
  destruct (JSFacts.halve_over maxAlerts 500 (alerts s ++ [a])) as [Heq _];
    [done|done|rewrite length_app; simpl; lia|].
  etrans; [exact Heq|]. unfold maxAlerts in *.
  rewrite length_app. simpl.
  replace (length (alerts s) + 1 - Z.to_nat 500)%nat
    with (length (alerts s) - 499)%nat by lia.
  apply drop_app_le. lia.
Qed.

Lemma createAlert_bound cfg now stamp rnd params (s : AlertingService) :
  Z.of_nat (length (alerts s)) ≤ maxAlerts →
  Z.of_nat (length (alerts (createAlert cfg now stamp rnd params s).2))
  ≤ maxAlerts.
Proof.
  intros Hlen.
  destruct (AlertingFacts.createAlert_cases cfg now stamp rnd params s)
    as [-> | ->]; [done|].
  apply pushed_alerts_length.
Qed.

(** X13. The alert array is bounded. However many alerts are raised, the
    service holds at most 1000; an alert that is emitted is the last entry
    afterwards, appended while fewer than 1000 are held, and once 1000 are
    held the push leaves the newest 499 of them followed by the new one. *)
Theorem alert_store_bounded (cfg : MonitoringConfig) :
  (∀ cs, Z.of_nat (length (alerts (calls cfg cs init))) ≤ maxAlerts) ∧
  (∀ now stamp rnd params s a s',
     createAlert cfg now stamp rnd params s = (Some a, s') →
     last (alerts s') = Some a ∧
     (Z.of_nat (length (alerts s)) < maxAlerts →
      alerts s' = alerts s ++ [a]) ∧
     (Z.of_nat (length (alerts s)) = maxAlerts →
      alerts s' = drop 501 (alerts s) ++ [a] ∧
      length (alerts s') = 500%nat)).
Proof.
  split.
  - assert (Hgen : ∀ cs s, Z.of_nat (length (alerts s)) ≤ maxAlerts →
              Z.of_nat (length (alerts (calls cfg cs s))) ≤ maxAlerts).
    { induction cs as [|c cs IH]; intros s Hs; [done|].
      simpl. apply IH. by apply createAlert_bound. }
    intros cs. by apply Hgen.
  - intros now stamp rnd params s a s' Hcall.
    destruct (AlertingFacts.createAlert_cases cfg now stamp rnd params s)
      as [H|H]; rewrite H in Hcall; [done|].
    injection Hcall as <- <-. cbn [alerts].
    split_and!.
    + destruct (Z.lt_ge_cases (Z.of_nat (length (alerts s))) maxAlerts).
      * rewrite pushed_alerts_within by done. apply last_snoc.
      * rewrite pushed_alerts_over by done. apply last_snoc.
    + apply pushed_alerts_within.
    + intros Hfull. rewrite pushed_alerts_over by lia.
      unfold maxAlerts in Hfull.
      replace (length (alerts s) - 499)%nat with 501%nat by lia.
      split; [done|]. rewrite length_app, length_drop. simpl. lia.
Qed.

(** *** Other keys *)

Lemma createAlert_fst_lookup cfg now stamp rnd params
    (s s' : AlertingService) :
  lastAlertTime s' !! alertKey params = lastAlertTime s !! alertKey params →
  (createAlert cfg now stamp rnd params s').1
  = (createAlert cfg now stamp rnd params s).1.
Proof.
  intros Heq. unfold createAlert. rewrite Heq.
  by destruct (JS.truthy_num _ && _).
Qed.

Lemma call_other_key cfg (c : Call) (s : AlertingService) (k : string) :
  alertKey (c_params c) ≠ k →
  lastAlertTime (call cfg c s).2 !! k = lastAlertTime s !! k.
Proof.
  intros Hne. unfold call.
  destruct (AlertingFacts.createAlert_cases cfg (c_now c) (c_stamp c)
              (c_rnd c) (c_params c) s) as [-> | ->]; [done|].
  cbn [snd lastAlertTime]. by rewrite lookup_insert_ne.
Qed.

Lemma calls_other_key cfg (cs : list Call) (s : AlertingService)
    (k : string) :
  Forall (λ c, alertKey (c_params c) ≠ k) cs →
  lastAlertTime (calls cfg cs s) !! k = lastAlertTime s !! k.
Proof.
  intros Hcs. revert s. induction Hcs as [|c cs Hc _ IH]; intros s; [done|].
  simpl. rewrite IH. by apply call_other_key.
Qed.

(** X14. Alerts of another type or severity never stand in the way. Whatever
    calls of other (type, severity) pairs are made first, a call is
    answered as it would have been without them: the same alert is emitted,
    or the call is suppressed just the same. A critical alert is thus never
    held back by the cooldown of a warning of the same type. *)
Theorem other_keys_do_not_interfere cfg (c : Call) (others : list Call)
    (s : AlertingService) :
  Forall (λ o, p_type (c_params o) ≠ p_type (c_params c) ∨
               p_severity (c_params o) ≠ p_severity (c_params c)) others →
  (call cfg c (calls cfg others s)).1 = (call cfg c s).1 ∧
  lastAlertTime (calls cfg others s) !! alertKey (c_params c)
  = lastAlertTime s !! alertKey (c_params c).
Proof.
  intros Hothers.
  assert (Hkey : lastAlertTime (calls cfg others s) !! alertKey (c_params c)
                 = lastAlertTime s !! alertKey (c_params c)).
  { apply calls_other_key. eapply Forall_impl; [exact Hothers|].
    intros o Ho Heq. apply AlertingFacts.alertKey_inj in Heq as [Ht Hv].
    by destruct Ho. }
  split; [|done]. unfold call. by apply createAlert_fst_lookup.
Qed.

Lemma other_keys_do_not_interfere_witness :
  let warn := mkCall 1700000000000 1700000000000 "k3x9ab"
                (mkAlertParams error_rate warning "High Error Rate"
                   "12 errors in the last minute on /api/pay" None) in
  let crit := mkCall 1700000005000 1700000005000 "q81zzp"
                (mkAlertParams error_rate critical "High Error Rate"
                   "21 errors in the last minute on /api/pay" None) in
  (∃ a, (call cooldown_config crit (calls cooldown_config [warn] init)).1
        = Some a ∧ severity a = critical) ∧
  length (alerts (calls cooldown_config [warn; crit] init)) = 2%nat.
Proof.
  intros warn crit.
  destruct (other_keys_do_not_interfere cooldown_config crit [warn] init)
    as [Hsame _].
  { constructor; [right; simpl; discriminate|constructor]. }
  split; [|reflexivity].
  rewrite Hsame. eexists. split; reflexivity.
Defined.

(** *** Acknowledging *)

Lemma acknowledge_first_None (i : string) (l : list Alert) :
  acknowledge_first i l = None ↔ ∀ a, a ∈ l → id a ≠ i.
Proof.
  induction l as [|a l IH]; simpl.
  - split; [|done]. intros _ a Ha. by apply elem_of_nil in Ha.
  - destruct (String.eqb_spec (id a) i) as [Heq|Hne].
    + split; [done|]. intros Hall. exfalso.
      apply (Hall a); [apply list_elem_of_here|done].
    + rewrite fmap_None, IH. split.
      * intros Hall b [->|Hb]%elem_of_cons; [done|by apply Hall].
      * intros Hall b Hb. by apply Hall, list_elem_of_further.
Qed.

Lemma acknowledge_first_Some (i : string) (l l' : list Alert) :
  acknowledge_first i l = Some l' →
  ∃ l1 a l2, l = l1 ++ a :: l2 ∧ (∀ b, b ∈ l1 → id b ≠ i) ∧ id a = i ∧
             l' = l1 ++ acknowledge a :: l2.
Proof.
  revert l'. induction l as [|a l IH]; intros l' H; simpl in H; [done|].
  destruct (String.eqb_spec (id a) i) as [Heq|Hne].
  - injection H as <-. exists [], a, l. split_and!; try done.
    intros b Hb. by apply elem_of_nil in Hb.
  - apply fmap_Some in H as (l0 & H0 & ->).
    destruct (IH l0 H0) as (l1 & b & l2 & -> & Hl1 & Hb & ->).
    exists (a :: l1), b, l2. split_and!; try done.
    intros c [->|Hc]%elem_of_cons; [done|by apply Hl1].
Qed.

Lemma acknowledge_first_app (i : string) (l1 l2 : list Alert) (a : Alert) :
  (∀ b, b ∈ l1 → id b ≠ i) → id a = i →
  acknowledge_first i (l1 ++ a :: l2) = Some (l1 ++ acknowledge a :: l2).
Proof.
  intros Hl1 Ha. induction l1 as [|b l1 IH]; simpl.
  - by rewrite <- Ha, String.eqb_refl.
  - destruct (String.eqb_spec (id b) i) as [Heq|Hne].
    + exfalso. apply (Hl1 b); [apply list_elem_of_here|done].
    + rewrite IH; [done|]. intros c Hc. by apply Hl1, list_elem_of_further.
Qed.

(** X15. Acknowledging through the route. The answer is 404 exactly when no
    stored alert has the id, and then nothing changes. Otherwise it is 200
    and the first stored alert with that id, and no other, is marked
    acknowledged: every alert keeps its place and all its other fields, and
    the cooldown stamps are untouched. Acknowledging the same id again
    gives the same answer and changes nothing more. *)
Theorem acknowledge_marks_first_match (alertId : string)
    (s : AlertingService) :
  let r := postAcknowledge alertId s in
  (r.1 = 404 ↔ ∀ a, a ∈ alerts s → id a ≠ alertId) ∧
  (r.1 = 404 → r.2 = s) ∧
  (r.1 ≠ 404 →
   r.1 = 200 ∧
   ∃ l1 a l2,
     alerts s = l1 ++ a :: l2 ∧ (∀ b, b ∈ l1 → id b ≠ alertId) ∧
     id a = alertId ∧
     alerts r.2 = l1 ++ acknowledge a :: l2) ∧
  lastAlertTime r.2 = lastAlertTime s ∧
  postAcknowledge alertId r.2 = r.
Proof.
  unfold postAcknowledge, acknowledgeAlert. cbv zeta.
  destruct (acknowledge_first alertId (alerts s)) as [l|] eqn:Hack.
  - cbn [fst snd alerts lastAlertTime].
    destruct (acknowledge_first_Some _ _ _ Hack)
      as (l1 & a & l2 & Hs & Hl1 & Ha & ->).
    split_and!; try done.
    + split; [done|]. intros Hall. exfalso.
      apply (Hall a); [|done]. rewrite Hs. apply elem_of_app. right.
      apply list_elem_of_here.
    + intros _. split; [done|]. by exists l1, a, l2.
    + rewrite (acknowledge_first_app alertId l1 l2 (acknowledge a)) by done.
      done.
  - cbn [fst snd]. rewrite Hack. split_and!; try done.
    split; [|done]. intros _. by apply acknowledge_first_None.
Qed.

(** With two alerts of one id only the first is marked. *)
Example acknowledge_first_of_two :
  let a := mkAlert "alert-1700000000000-k3x9ab" custom info "t" "m"
             1700000000000 [] false in
  let b := mkAlert "alert-1700000000000-k3x9ab" custom warning "t" "m"
             1700000000000 [] false in
  postAcknowledge "alert-1700000000000-k3x9ab" (mkAlertingService [a; b] ∅)
  = (200, mkAlertingService [acknowledge a; b] ∅) ∧
  (postAcknowledge "alert-0-zzzzzz" (mkAlertingService [a; b] ∅)).1 = 404.
Proof. by vm_compute. Qed.

(** *** Reading alerts back, any limit *)

Lemma slice_from_zero {A} (l : list A) (e : Z) :
  JS.slice l 0 (Some e) = take (JS.rel_index (length l) e) l.
Proof.
  unfold JS.slice. change (JS.rel_index (length l) 0)
    with (Z.to_nat (Z.min 0 (Z.of_nat (length l)))).
  replace (Z.to_nat (Z.min 0 (Z.of_nat (length l)))) with 0%nat by lia.
  by rewrite Nat.sub_0_r, drop_0.
Qed.

Lemma newest_first_sorted (l : list Alert) :
  StronglySorted (λ a b, timestamp b ≤ timestamp a) (JS.sort newest_first l).
Proof.
  apply JSFacts.sort_sorted; unfold newest_first.
  - intros a b c. lia.
  - intros a b. lia.
  - intros a b. lia.
Qed.


(** A limit of -1 over three stored alerts returns the two newest. *)
Example negative_limit_drops_oldest :
  let mk i := mkAlert ("alert-" +:+ pretty i) custom info "t" "m"
                (1700000000000 + 1000 * i) [] false in
  map timestamp
    (getAlerts (Some (mkAlertFilter None None None (Some (-1))))
       (mkAlertingService [mk 0; mk 1; mk 2] ∅))
  = [1700000002000; 1700000001000].
Proof. by vm_compute. Qed.

End AlertingMore.

(** ** Alert rules and the error tracker *)

Module RulesFacts.
Import Metrics Summary Alerting AlertingSpec AlertRules Runs RulesSpec.

Lemma filter_all {A} (f : A → bool) (l : list A) :
  Forall (λ x, f x = true) l → List.filter f l = l.
Proof.
  induction 1 as [|x l Hx _ IH]; simpl; [done|]. by rewrite Hx, IH.
Qed.

Lemma error_rate_key (rules : RuleConfig) (k : Z) :
  alertKey (error_rate_params rules k)
  = if ERROR_RATE_THRESHOLD rules * 2 <=? k then "error_rate:critical"
    else "error_rate:warning".
Proof.
  unfold alertKey, error_rate_params. simpl.
  by destruct (ERROR_RATE_THRESHOLD rules * 2 <=? k).
Qed.

(** X17. The periodic error-rate rule, from the recorded errors to the stored
    alert. With [k] errors stamped within the last minute and no error-rate
    alert raised before, the check does nothing while [k] is below
    [ERROR_RATE_THRESHOLD]; from the threshold on it stores one unacknowledged
    alert of type [error_rate], whose severity is [critical] from twice the
    threshold on and [warning] below, and stamps its key with the time of
    the call. *)
Theorem error_rate_rule cfg (rules : RuleConfig) (T : Z) (env : Env)
    (evs : list ErrorEvent) (s : AlertingService) :
  Forall (λ e, T - 60000 < ev_stamp e ∧ ev_now e ≤ T) evs →
  lastAlertTime s !! "error_rate:warning" = None →
  lastAlertTime s !! "error_rate:critical" = None →
  let k := Z.of_nat (length evs) in
  let s' := checkErrorRate cfg rules T env (record_errors evs Metrics.init) s in
  (k < ERROR_RATE_THRESHOLD rules → s' = s) ∧
  (ERROR_RATE_THRESHOLD rules ≤ k →
   ∃ a, alerts s' = pushed_alerts s a ∧
        type a = error_rate ∧
        severity a = (if ERROR_RATE_THRESHOLD rules * 2 <=? k then critical
                      else warning) ∧
        timestamp a = e_stamp env ∧ acknowledged a = false ∧
        lastAlertTime s' !! alertKey (error_rate_params rules k)
        = Some (e_now env)).
Proof.
  intros Hevs Hw Hc k s'.
  assert (Hrate : getErrorRate T (record_errors evs Metrics.init) = k).
  { rewrite MetricsMore.getErrorRate_record_errors by done. done. }
  unfold s', checkErrorRate. rewrite Hrate. split.
  - intros Hlow. by destruct (Z.leb_spec (ERROR_RATE_THRESHOLD rules) k); [lia|].
  - intros Hhigh. destruct (Z.leb_spec (ERROR_RATE_THRESHOLD rules) k); [|lia].
    rewrite AlertingFacts.createAlert_emitted.
    2: { intros t. rewrite error_rate_key.
         destruct (ERROR_RATE_THRESHOLD rules * 2 <=? k); by rewrite ?Hw, ?Hc. }
    eexists. cbn [snd alerts lastAlertTime]. split; [done|].
    split_and!; try done. apply lookup_insert_eq.
Qed.

Lemma error_rate_rule_witness :
  let rules := mkRuleConfig 10 2000 in
  let evs := map (λ i, mkErrorEvent (1700000000001 + 1000 * Z.of_nat i)
                         (1700000000002 + 1000 * Z.of_nat i) "boom" "/api/pay")
               (seq 0 25) in
  let s' := checkErrorRate cooldown_config rules 1700000060000
              (mkEnv 1700000060000 1700000060001 "k3x9ab")
              (record_errors evs Metrics.init) Alerting.init in
  map severity (alerts s') = [critical] ∧
  lastAlertTime s' !! "error_rate:critical" = Some 1700000060000.
Proof.
  intros rules evs s'.
  destruct (error_rate_rule cooldown_config rules 1700000060000
              (mkEnv 1700000060000 1700000060001 "k3x9ab") evs Alerting.init)
    as [_ Hhigh].
  { apply (bool_decide_unpack _). by vm_compute. }
  { reflexivity. }
  { reflexivity. }
  destruct (Hhigh ltac:(by vm_compute)) as (a & Ha & _ & Hsev & _ & _ & Hkey).
  fold s' in Ha, Hkey. split.
  - rewrite Ha. change (pushed_alerts Alerting.init a) with [a].
    simpl. by rewrite Hsev.
  - exact Hkey.
Defined.

(** *** A burst of failed requests *)

Lemma tracker_key (k : Z) (msg url : string) :
  alertKey (tracker_params k msg url)
  = if 20 <=? k then "error_rate:critical" else "error_rate:warning".
Proof. unfold alertKey, tracker_params. simpl. by destruct (20 <=? k). Qed.

Lemma track_all_snoc cfg (xs : list Tracked) (x : Tracked) st :
  track_all cfg (xs ++ [x]) st = track cfg x (track_all cfg xs st).
Proof. unfold track_all. by rewrite foldl_app. Qed.

Section Burst.
Context (cfg : MonitoringConfig) (T0 W : Z).
Hypothesis T0_pos : 0 < T0.
Hypothesis W_minute : W ≤ 60000.
Hypothesis W_cooldown : W ≤ ALERT_COOLDOWN_MS cfg.

Lemma track_burst (xs : list Tracked) :
  Forall (in_burst T0 W) xs →
  let st := track_all cfg xs (Metrics.init, Alerting.init) in
  errorLog st.1 = map entry xs ∧
  alerts st.2 = burst_alerts xs ∧
  lastAlertTime st.2 !! "error_rate:warning"
  = (λ x, e_now (t_env x)) <$> xs !! 9%nat ∧
  lastAlertTime st.2 !! "error_rate:critical"
  = (λ x, e_now (t_env x)) <$> xs !! 19%nat.
Proof using T0_pos W_minute W_cooldown.
  induction xs as [|x xs IH] using rev_ind; intros Hxs; [done|].
  apply Forall_app in Hxs as [Hxs Hx]. apply Forall_inv in Hx.
  destruct (IH Hxs) as (Hlog & Halerts & Hwarn & Hcrit). clear IH.
  cbv zeta. rewrite track_all_snoc.
  destruct (track_all cfg xs (Metrics.init, Alerting.init)) as [m s].
  cbn [fst snd] in *.
  unfold in_burst in Hx, Hxs.
  destruct Hx as (Hstamp & Hnow & Hrate & Henv).
  assert (Hwin : ∀ y, y ∈ xs → T0 ≤ ev_stamp (t_ev y) ∧
                                T0 ≤ e_now (t_env y) < T0 + W).
  { intros y Hy. rewrite Forall_forall in Hxs.
    destruct (Hxs y Hy) as (? & _ & _ & ?). done. }
  unfold track, errorTracker. cbn [fst snd].
  set (m' := recordError _ _ _ _ m).
  assert (Hlog' : errorLog m' = map entry (xs ++ [x])).
  { unfold m', recordError. cbn [errorLog]. rewrite Hlog, map_app.
    apply filter_all. rewrite <- map_app. apply Forall_forall.
    intros e He. apply list_elem_of_In, in_map_iff in He as (y & <- & Hy).
    apply list_elem_of_In, elem_of_app in Hy as [Hy|Hy].
    - destruct (Hwin y Hy) as [? _]. apply Z.ltb_lt. simpl. lia.
    - apply list_elem_of_singleton in Hy as ->. apply Z.ltb_lt. simpl. lia. }
  assert (Hrate' : getErrorRate (t_rate_now x) m'
                   = Z.of_nat (length xs) + 1).
  { unfold getErrorRate. rewrite Hlog'. rewrite filter_all.
    - rewrite length_map, length_app. simpl. lia.
    - apply Forall_forall. intros e He.
      apply list_elem_of_In, in_map_iff in He as (y & <- & Hy).
      apply list_elem_of_In, elem_of_app in Hy as [Hy|Hy].
      + destruct (Hwin y Hy) as [? _]. apply Z.ltb_lt.
        unfold errorWindowMs. simpl. lia.
      + apply list_elem_of_singleton in Hy as ->. apply Z.ltb_lt.
        unfold errorWindowMs. simpl. lia. }
  rewrite Hrate'. split; [exact Hlog'|].
  unfold burst_alerts in *.
  assert (Hsnoc : ∀ i : nat,
            (xs ++ [x]) !! i
            = if decide (i = length xs) then Some x else xs !! i).
  { intros i. destruct (decide (i = length xs)) as [->|Hne].
    - by apply list_lookup_middle.
    - destruct (decide (i < length xs)%nat).
      + by apply lookup_app_l.
      + rewrite !lookup_ge_None_2; [done|lia|rewrite length_app; simpl; lia]. }
  rewrite !Hsnoc.
  destruct (Z.leb_spec 10 (Z.of_nat (length xs) + 1)) as [Hten|Hten].
  2: { (* fewer than ten errors so far *)
    rewrite !decide_False by lia. by split_and!. }
  assert (Hkey : alertKey (tracker_params (Z.of_nat (length xs) + 1)
                             (ev_message (t_ev x)) (ev_path (t_ev x)))
                 = if 20 <=? Z.of_nat (length xs) + 1
                   then "error_rate:critical" else "error_rate:warning")
    by apply tracker_key.
  destruct (Z.leb_spec 20 (Z.of_nat (length xs) + 1)) as [Htwenty|Htwenty].
  - (* the critical key *)
    rewrite (decide_False (P := 9%nat = length xs)) by lia.
    destruct (xs !! 9%nat) as [y|] eqn:Hy;
      [|apply lookup_ge_None_1 in Hy; lia].
    destruct (decide (19%nat = length xs)) as [Hlen|Hlen].
    + (* the twentieth error *)
      assert (H19 : xs !! 19%nat = None) by (apply lookup_ge_None_2; lia).
      rewrite H19 in Halerts, Hcrit.
      rewrite AlertingFacts.createAlert_emitted.
      2: { intros t. by rewrite Hkey, Hcrit. }
      cbn [snd alerts lastAlertTime]. rewrite Hkey.
      rewrite lookup_insert_ne, lookup_insert_eq by done.
      simpl in Halerts. split_and!; [|done|done].
      rewrite (AlertingFacts.pushed_alerts_one _ _ _ Halerts).
      simpl. unfold tracked_alert. do 4 f_equal. lia.
    + (* later errors *)
      destruct (xs !! 19%nat) as [z|] eqn:Hz;
        [|apply lookup_ge_None_1 in Hz; lia].
      destruct (Hwin z) as [_ Hznow]; [by eapply list_elem_of_lookup_2|].
      rewrite (AlertingFacts.createAlert_suppressed _ _ _ _ _ _
                 (e_now (t_env z))); [by split_and!|by rewrite Hkey|lia|lia].
  - (* the warning key *)
    rewrite (decide_False (P := 19%nat = length xs)) by lia.
    assert (H19 : xs !! 19%nat = None) by (apply lookup_ge_None_2; lia).
    rewrite H19 in Halerts, Hcrit |- *.
    destruct (decide (9%nat = length xs)) as [Hlen|Hlen].
    + (* the tenth error *)
      assert (H9 : xs !! 9%nat = None) by (apply lookup_ge_None_2; lia).
      rewrite H9 in Halerts, Hwarn.
      rewrite AlertingFacts.createAlert_emitted.
      2: { intros t. by rewrite Hkey, Hwarn. }
      cbn [snd alerts lastAlertTime]. rewrite Hkey.
      rewrite lookup_insert_eq, lookup_insert_ne by done.
      simpl in Halerts. split_and!; [|done|done].
      rewrite (AlertingFacts.pushed_alerts_nil _ _ Halerts).
      simpl. unfold tracked_alert. do 4 f_equal. lia.
    + (* the eleventh to the nineteenth *)
      destruct (xs !! 9%nat) as [y|] eqn:Hy;
        [|apply lookup_ge_None_1 in Hy; lia].
      destruct (Hwin y) as [_ Hynow]; [by eapply list_elem_of_lookup_2|].
      rewrite (AlertingFacts.createAlert_suppressed _ _ _ _ _ _
                 (e_now (t_env y))); [by split_and!|by rewrite Hkey|lia|lia].
Qed.

End Burst.



End RulesFacts.

(** ** Elasticsearch transport: the buffer *)

Module TransportMore.
Import Transport Runs.

Lemma log_buffer (r : FetchResult) (doc : Doc) (t : ElasticsearchTransport) :
  ∃ t', log r doc t = JS.Returns t' ∧ indexPrefix t' = indexPrefix t ∧
        buffer t' = if bufferLimit <=? Z.of_nat (length (buffer t)) + 1
                    then [] else buffer t ++ [doc].
Proof.
  unfold log. cbn [buffer set_buffer]. rewrite length_app. simpl.
  replace (Z.of_nat (length (buffer t) + 1)) with
    (Z.of_nat (length (buffer t)) + 1) by lia.
  destruct (bufferLimit <=? Z.of_nat (length (buffer t)) + 1).
  - destruct (ExportFacts.flush_returns r
                (mkTransport (buffer t ++ [doc]) (indexPrefix t)
                   (console_error t))) as (t' & Hflush & Hbuf & Hpre).
    exists t'. by split_and!.
  - by eexists.
Qed.

Lemma logs_buffer (xs : list (FetchResult * Doc))
    (t : ElasticsearchTransport) :
  (length (buffer t) < 100)%nat →
  ∃ t' k, logs xs t = JS.Returns t' ∧
          buffer t' = drop (100 * k) (buffer t ++ map snd xs) ∧
          (100 * k + length (buffer t') = length (buffer t) + length xs)%nat ∧
          (length (buffer t') < 100)%nat.
Proof.
  revert t. induction xs as [|[r doc] xs IH]; intros t Hlen.
  - exists t, 0%nat. cbn [logs map]. rewrite app_nil_r. split_and!; [done|done|cbn [length]; lia|done].
  - destruct (log_buffer r doc t) as (t1 & Hlog & _ & Hbuf).
    cbn [logs fst snd]. rewrite Hlog. cbn [mbind JS.outcome_bind].
    unfold bufferLimit in Hbuf.
    destruct (Z.leb_spec 100 (Z.of_nat (length (buffer t)) + 1)).
    + destruct (IH t1) as (t' & k & Hrun & Hdrop & Hsum & Hlt);
        [rewrite Hbuf; cbn [length]; lia|].
      exists t', (S k). rewrite Hbuf in Hdrop, Hsum. cbn [app length] in Hdrop, Hsum.
      split_and!; [done| |cbn [length]; lia|done].
      rewrite Hdrop. cbn [map snd].
      replace (buffer t ++ doc :: map snd xs)
        with ((buffer t ++ [doc]) ++ map snd xs) by (by rewrite <- app_assoc).
      replace (100 * S k)%nat with (length (buffer t ++ [doc]) + 100 * k)%nat
        by (rewrite length_app; cbn [length]; lia).
      by rewrite <- drop_drop, drop_app_length.
    + destruct (IH t1) as (t' & k & Hrun & Hdrop & Hsum & Hlt);
        [rewrite Hbuf, length_app; cbn [length]; lia|].
      exists t', k. rewrite Hbuf in Hdrop, Hsum.
      rewrite length_app in Hsum. cbn [length] in Hsum.
      split_and!; [done| |cbn [length]; lia|done].
      rewrite Hdrop. cbn [map snd]. by rewrite <- app_assoc.
Qed.


Example two_hundred_and_three_documents :
  let doc i := mkDoc None (JS.Returns (pretty i)) in
  let xs := map (λ i, (Rejected "connect ECONNREFUSED", doc i)) (seq 0 203) in
  (buffer <$> match logs xs (mkTransport [] "payd" []) with
              | JS.Returns t => Some t
              | JS.Throws _ => None
              end)
  = Some [doc 200%nat; doc 201%nat; doc 202%nat].
Proof. by vm_compute. Qed.

Lemma bulk_lines_throws (prefix : string) (docs1 docs2 : list Doc) (d : Doc)
    (e : string) :
  (∀ d', d' ∈ docs1 → ∃ src, doc_json d' = JS.Returns src) →
  doc_json d = JS.Throws e →
  bulk_lines prefix (docs1 ++ d :: docs2) = JS.Throws e.
Proof.
  intros Hok Hbad. induction docs1 as [|d1 docs1 IH]; simpl.
  - unfold bulk_line. by rewrite Hbad.
  - destruct (Hok d1) as [src Hsrc]; [apply list_elem_of_here|].
    unfold bulk_line at 1. rewrite Hsrc. simpl.
    rewrite IH; [done|]. intros d' Hd'. by apply Hok, list_elem_of_further.
Qed.

Lemma bulk_lines_returns (prefix : string) (docs : list Doc) :
  (∀ d, d ∈ docs → ∃ src, doc_json d = JS.Returns src) →
  ∃ ls, bulk_lines prefix docs = JS.Returns ls ∧ length ls = length docs.
Proof.
  induction docs as [|d docs IH]; intros Hok; simpl; [by exists []|].
  destruct (Hok d) as [src Hsrc]; [apply list_elem_of_here|].
  destruct IH as (ls & -> & Hlen);
    [intros d' Hd'; by apply Hok, list_elem_of_further|].
  unfold bulk_line. rewrite Hsrc. simpl. eexists. split; [done|].
  simpl. by rewrite Hlen.
Qed.

(** X20. One document that cannot be serialized loses its whole batch. When a
    buffered document makes [JSON.stringify] throw, [flush] empties the
    buffer and leaves the same diagnostic whatever the server would answer,
    an accepting server included: the line carries the error of the first
    such document, and the documents buffered with it are gone. When every
    document serializes and the server accepts, nothing is written. *)
Theorem unserializable_document_drops_batch (docs1 docs2 : list Doc)
    (d : Doc) (e prefix : string) (errors : list string) :
  (∀ d', d' ∈ docs1 → ∃ src, doc_json d' = JS.Returns src) →
  doc_json d = JS.Throws e →
  (∀ r, flush r (mkTransport (docs1 ++ d :: docs2) prefix errors)
        = JS.Returns
            (mkTransport [] prefix
               (errors ++ ["Failed to ship logs to Elasticsearch: " +:+ e]))) ∧
  (∀ st txt,
     (∀ d', d' ∈ docs2 → ∃ src, doc_json d' = JS.Returns src) →
     flush (Responded true st txt) (mkTransport (docs1 ++ docs2) prefix errors)
     = JS.Returns (mkTransport [] prefix errors)).
Proof.
  intros Hok Hbad. split.
  - intros r. unfold flush. cbn [buffer].
    destruct (docs1 ++ d :: docs2) as [|d0 ds] eqn:Hdocs;
      [by destruct docs1|].
    rewrite <- Hdocs. rewrite length_app. simpl.
    replace (length docs1 + S (length docs2) =? 0)%nat with false
      by (symmetry; apply Nat.eqb_neq; lia).
    unfold flush_take, flush_send, set_buffer. cbn [buffer indexPrefix].
    by rewrite (bulk_lines_throws prefix docs1 docs2 d e Hok Hbad).
  - intros st txt Hok2.
    destruct (docs1 ++ docs2) as [|d0 ds] eqn:Hdocs; [done|].
    destruct (bulk_lines_returns prefix (docs1 ++ docs2)) as (ls & Hls & _).
    { intros d' [Hd'|Hd']%elem_of_app; [by apply Hok|by apply Hok2]. }
    rewrite Hdocs in Hls.
    unfold flush, flush_take, flush_send, set_buffer.
    cbn [buffer indexPrefix length Nat.eqb]. by rewrite Hls.
Qed.

Lemma unserializable_document_drops_batch_witness :
  let good := mkDoc None (JS.Returns "{...}") in
  let bad := mkDoc None
               (JS.Throws "Converting circular structure to JSON") in
  flush (Responded true 200 "OK") (mkTransport [good; bad; good] "payd" [])
  = JS.Returns
      (mkTransport [] "payd"
         ["Failed to ship logs to Elasticsearch: Converting circular structure to JSON"]).
Proof.
  intros good bad.
  destruct (unserializable_document_drops_batch [good] [good] bad
              "Converting circular structure to JSON" "payd" [])
    as [Hdrop _].
  { intros d' Hd'. apply list_elem_of_singleton in Hd' as ->. by eexists. }
  { reflexivity. }
  exact (Hdrop (Responded true 200 "OK")).
Defined.

End TransportMore.
